(** * Sum Merge: the game-state machine of [src/App.tsx] and [src/utils/gameUtils.ts]

    The development embeds the block generator of [gameUtils.ts] and the
    session controller of the [App] component (its event handlers and its
    effects) as functions on an explicit state record, and proves the
    properties of the specification about them.

    - JS numbers that hold integers (block values, rows, scores) are [Z];
      [timeLeft] is an exact rational [Q]; ids are [string]s. The code
      holds [timeLeft] in a double, whose subtraction rounds: what is
      stated of the countdown on [Q] does not depend on how many ticks it
      takes, and the counts of the doubles are computed apart, in
      [DoubleTimer].
    - [Math.random()] is an explicit source: the state carries the number
      of calls made so far, and the k-th call returns [random k].
    - every React state update of one handler is applied as one atomic step. *)

From Stdlib Require Import String List ZArith QArith Qround Bool Lia.
From Stdlib Require Floats.
Import ListNotations.
Open Scope Z_scope.

(** ** Types ([src/types.ts]) *)

Inductive GameMode : Set := classic | time.
Inductive GameStatus : Set := idle | playing | paused | gameover.

Record Block : Set := mkBlock {
  id : string;
  value : Z;
  row : Z;
  col : Z;
  isRemoving : option bool
}.

Definition modeIs (a b : GameMode) : bool :=
  match a, b with
  | classic, classic | time, time => true
  | _, _ => false
  end.

Definition statusIs (a b : GameStatus) : bool :=
  match a, b with
  | idle, idle | playing, playing | paused, paused | gameover, gameover => true
  | _, _ => false
  end.

(** ** Configuration and runtime *)

(** The constants of [src/constants.ts], which is not among the sources:
    they are parameters of the whole development. [GRID_COLS] and
    [INITIAL_ROWS] only bound the counting loops, so they are naturals. *)
Record Constants : Set := mkConstants {
  GRID_COLS : nat;
  GRID_ROWS_MAX : Z;
  INITIAL_ROWS : nat;
  MIN_VALUE : Z;
  MAX_VALUE : Z;
  TARGET_SUM_MIN : Z;
  TARGET_SUM_MAX : Z;
  TIME_LIMIT : Q
}.

(** What the JS runtime supplies: [random k] is the result of the k-th call
    of [Math.random()], [toString36 x] is [x.toString(36)]. *)
Record Runtime : Type := mkRuntime {
  random : nat -> Q;
  toString36 : Q -> string
}.

(** Computations that call [Math.random()]: they map the number of calls
    made so far to a result and the new number of calls. *)
Definition Rand (A : Type) : Type := nat -> A * nat.

Definition ret {A : Type} (a : A) : Rand A := fun n => (a, n).

Definition bind {A B : Type} (m : Rand A) (k : A -> Rand B) : Rand B :=
  fun n => let (a, n') := m n in k a n'.

Notation "x <- m ;; k" := (bind m (fun x => k))
  (at level 61, m at next level, right associativity).

(** [for (let c = 0; c < n; c++) acc.push(body(c))], with the counter
    ranging over [cs]. *)
Fixpoint forEach {A : Type} (cs : list nat) (body : nat -> Rand A) : Rand (list A) :=
  match cs with
  | [] => ret []
  | c :: cs' => b <- body c ;; bs <- forEach cs' body ;; ret (b :: bs)
  end.

(** [x || 0] on an optional number: [undefined] and [0] are falsy. *)
Definition orZero (o : option Z) : Z :=
  match o with
  | Some v => if v =? 0 then 0 else v
  | None => 0
  end.

(** [ids.includes(i)] *)
Definition includes (ids : list string) (i : string) : bool :=
  existsb (String.eqb i) ids.

Section Game.

Variable K : Constants.
Variable W : Runtime.

(** ** [src/utils/gameUtils.ts] *)

Definition mathRandom : Rand Q := fun n => (random W n, S n).

(** [Math.random().toString(36).substring(2, 9)] *)
Definition generateId : Rand string :=
  x <- mathRandom ;; ret (substring 2 7 (toString36 W x)).

Definition createBlock (r c : Z) : Rand Block :=
  i <- generateId ;;
  x <- mathRandom ;;
  ret {| id := i;
         value := Qfloor (x * inject_Z (MAX_VALUE K - MIN_VALUE K + 1)) + MIN_VALUE K;
         row := r;
         col := c;
         isRemoving := None |}.

Definition generateInitialBlocks (rows : nat) : Rand (list Block) :=
  rs <- forEach (seq 0 rows) (fun r =>
          forEach (seq 0 (GRID_COLS K)) (fun c =>
            createBlock (Z.of_nat r) (Z.of_nat c))) ;;
  ret (concat rs).

Definition generateTargetSum : Rand Z :=
  x <- mathRandom ;;
  ret (Qfloor (x * inject_Z (TARGET_SUM_MAX K - TARGET_SUM_MIN K + 1)) + TARGET_SUM_MIN K).

(** [{ ...b, row: b.row + 1 }] *)
Definition shiftUp (b : Block) : Block :=
  {| id := id b; value := value b; row := row b + 1; col := col b;
     isRemoving := isRemoving b |}.

Definition addNewRow (blocks : list Block) : Rand (list Block) :=
  let shiftedBlocks := map shiftUp blocks in
  newRow <- forEach (seq 0 (GRID_COLS K)) (fun c => createBlock 0 (Z.of_nat c)) ;;
  ret (shiftedBlocks ++ newRow).

Definition checkGameOver (blocks : list Block) (maxRows : Z) : bool :=
  existsb (fun b => row b >=? maxRows) blocks.

(** ** The state of [App] ([src/App.tsx])

    One field per [useState] hook that the game logic reads, the persisted
    [highScore] ([undefined] is [None]), and two fields of bookkeeping:
    [draws], the number of [Math.random()] calls made so far, and
    [pendingClears], the number of overshoot timeouts scheduled and not
    yet fired. *)
Record GameState : Type := mkState {
  blocks : list Block;
  targetSum : Z;
  score : Z;
  highScore : option Z;
  status : GameStatus;
  mode : GameMode;
  timeLeft : Q;
  selectedIds : list string;
  isWrong : bool;
  draws : nat;
  pendingClears : nat
}.

Definition setBlocks (v : list Block) (s : GameState) : GameState :=
  mkState v (targetSum s) (score s) (highScore s) (status s) (mode s)
          (timeLeft s) (selectedIds s) (isWrong s) (draws s) (pendingClears s).
Definition setTargetSum (v : Z) (s : GameState) : GameState :=
  mkState (blocks s) v (score s) (highScore s) (status s) (mode s)
          (timeLeft s) (selectedIds s) (isWrong s) (draws s) (pendingClears s).
Definition setScore (v : Z) (s : GameState) : GameState :=
  mkState (blocks s) (targetSum s) v (highScore s) (status s) (mode s)
          (timeLeft s) (selectedIds s) (isWrong s) (draws s) (pendingClears s).
Definition setHighScore (v : option Z) (s : GameState) : GameState :=
  mkState (blocks s) (targetSum s) (score s) v (status s) (mode s)
          (timeLeft s) (selectedIds s) (isWrong s) (draws s) (pendingClears s).
Definition setStatus (v : GameStatus) (s : GameState) : GameState :=
  mkState (blocks s) (targetSum s) (score s) (highScore s) v (mode s)
          (timeLeft s) (selectedIds s) (isWrong s) (draws s) (pendingClears s).
Definition setMode (v : GameMode) (s : GameState) : GameState :=
  mkState (blocks s) (targetSum s) (score s) (highScore s) (status s) v
          (timeLeft s) (selectedIds s) (isWrong s) (draws s) (pendingClears s).
Definition setTimeLeft (v : Q) (s : GameState) : GameState :=
  mkState (blocks s) (targetSum s) (score s) (highScore s) (status s) (mode s)
          v (selectedIds s) (isWrong s) (draws s) (pendingClears s).
Definition setSelectedIds (v : list string) (s : GameState) : GameState :=
  mkState (blocks s) (targetSum s) (score s) (highScore s) (status s) (mode s)
          (timeLeft s) v (isWrong s) (draws s) (pendingClears s).
Definition setIsWrong (v : bool) (s : GameState) : GameState :=
  mkState (blocks s) (targetSum s) (score s) (highScore s) (status s) (mode s)
          (timeLeft s) (selectedIds s) v (draws s) (pendingClears s).
Definition setDraws (v : nat) (s : GameState) : GameState :=
  mkState (blocks s) (targetSum s) (score s) (highScore s) (status s) (mode s)
          (timeLeft s) (selectedIds s) (isWrong s) v (pendingClears s).
Definition setPendingClears (v : nat) (s : GameState) : GameState :=
  mkState (blocks s) (targetSum s) (score s) (highScore s) (status s) (mode s)
          (timeLeft s) (selectedIds s) (isWrong s) (draws s) v.

(** The state of the first render: [useLocalStorage] yields what is stored
    under the high-score key. *)
Definition initialState (stored : option Z) : GameState :=
  mkState [] 0 0 stored idle classic (TIME_LIMIT K) [] false 0 0.

(** ** Event handlers *)

Definition startGame (selectedMode : GameMode) (s : GameState) : GameState :=
  let (bs, n1) := generateInitialBlocks (INITIAL_ROWS K) (draws s) in
  let (t, n2) := generateTargetSum n1 in
  setDraws n2
    (setSelectedIds []
      (setTimeLeft (TIME_LIMIT K)
        (setMode selectedMode
          (setStatus playing
            (setScore 0
              (setTargetSum t
                (setBlocks bs s))))))).

Definition resetGame (s : GameState) : GameState :=
  setSelectedIds [] (setBlocks [] (setStatus idle s)).

Definition handleBlockClick (i : string) (s : GameState) : GameState :=
  if negb (statusIs (status s) playing) then s
  else
    let prev := selectedIds s in
    setSelectedIds
      (if includes prev i
       then filter (fun j => negb (String.eqb j i)) prev
       else prev ++ [i])
      s.

(** The pause button: [setStatus(prev => prev === 'playing' ? 'paused' : 'playing')] *)
Definition togglePause (s : GameState) : GameState :=
  setStatus (if statusIs (status s) playing then paused else playing) s.

(** The resume button of the pause overlay: [setStatus('playing')] *)
Definition resume (s : GameState) : GameState := setStatus playing s.

(** The clear button: [setSelectedIds([])] *)
Definition clearSelection (s : GameState) : GameState := setSelectedIds [] s.

(** ** The selection check *)

(** [selectedIds.reduce((sum, id) => sum + (blocks.find(b => b.id === id)?.value || 0), 0)] *)
Definition currentSum (selected : list string) (bs : list Block) : Z :=
  fold_left
    (fun sum i =>
       let block := find (fun b => String.eqb (id b) i) bs in
       sum + orZero (option_map value block))
    selected 0.

(** [handleSuccess] reads [selectedIds], [mode], [timeLeft], [score] and
    [highScore] of the render that ran the check, here the state [s]; its
    updates are applied in the order of the source text, so the new row of
    classic mode takes its random draws before the new target does. *)
Definition handleSuccess (s : GameState) : GameState :=
  let points :=
    Z.of_nat (length (selectedIds s)) * 10
    + (if modeIs (mode s) time then Qfloor (timeLeft s) else 0) in
  let s1 := setScore (score s + points) s in
  let remaining :=
    filter (fun b => negb (includes (selectedIds s) (id b))) (blocks s1) in
  let s2 :=
    if modeIs (mode s) classic then
      let (withNewRow, n) := addNewRow remaining (draws s1) in
      let s' :=
        if checkGameOver withNewRow (GRID_ROWS_MAX K)
        then setStatus gameover s1 else s1 in
      setDraws n (setBlocks withNewRow s')
    else setBlocks remaining s1 in
  let s3 := setSelectedIds [] s2 in
  let (t, n) := generateTargetSum (draws s3) in
  let s4 := setDraws n (setTargetSum t s3) in
  let s5 := if modeIs (mode s) time then setTimeLeft (TIME_LIMIT K) s4 else s4 in
  if score s + points >? orZero (highScore s)
  then setHighScore (Some (score s + points)) s5
  else s5.

(** The three branches of the check, named as the specification names them. *)
Inductive Signal : Set := Success | Overshoot | Pending.

Definition evaluate (selected : list string) (bs : list Block) (target : Z) : Signal :=
  let sum := currentSum selected bs in
  if sum =? target then Success
  else if sum >? target then Overshoot
  else Pending.

(** The overshoot branch: [setIsWrong(true)] and a timeout is scheduled. *)
Definition flagWrong (s : GameState) : GameState :=
  setPendingClears (S (pendingClears s)) (setIsWrong true s).

(** The effect on [selectedIds, targetSum, blocks]. *)
Definition selectionEffect (s : GameState) : GameState :=
  if (length (selectedIds s) =? 0)%nat then s
  else
    match evaluate (selectedIds s) (blocks s) (targetSum s) with
    | Success => handleSuccess s
    | Overshoot => flagWrong s
    | Pending => s
    end.

(** A scheduled overshoot timeout fires: [setIsWrong(false); setSelectedIds([])]. *)
Definition overshootTimeout (s : GameState) : GameState :=
  match pendingClears s with
  | O => s
  | S k => setPendingClears k (setSelectedIds [] (setIsWrong false s))
  end.

(** ** The timer of time mode *)

(** One firing of the 100ms interval; the interval exists only while
    [status === 'playing' && mode === 'time']. *)
Definition tick (s : GameState) : GameState :=
  if statusIs (status s) playing && modeIs (mode s) time then
    if Qle_bool (timeLeft s) 0 then
      let (withNewRow, n) := addNewRow (blocks s) (draws s) in
      let s' :=
        if checkGameOver withNewRow (GRID_ROWS_MAX K)
        then setStatus gameover s else s in
      setTimeLeft (TIME_LIMIT K) (setDraws n (setBlocks withNewRow s'))
    else setTimeLeft (timeLeft s - (1 # 10))%Q s
  else s.

(** The effect on [blocks, status]: an empty grid is refilled while playing. *)
Definition refillEffect (s : GameState) : GameState :=
  if statusIs (status s) playing && (length (blocks s) =? 0)%nat then
    let (bs, n) := generateInitialBlocks (INITIAL_ROWS K) (draws s) in
    setDraws n (setBlocks bs s)
  else s.

(** ** Sessions *)

Inductive Op : Set :=
| Start (m : GameMode)
| Retry
| Reset
| Click (i : string)
| SelectionCheck
| OvershootTimeout
| Tick
| TogglePause
| Resume
| ClearSelection
| Refill.

Definition step (o : Op) (s : GameState) : GameState :=
  match o with
  | Start m => startGame m s
  | Retry => startGame (mode s) s
  | Reset => resetGame s
  | Click i => handleBlockClick i s
  | SelectionCheck => selectionEffect s
  | OvershootTimeout => overshootTimeout s
  | Tick => tick s
  | TogglePause => togglePause s
  | Resume => resume s
  | ClearSelection => clearSelection s
  | Refill => refillEffect s
  end.

Definition run (ops : list Op) (s : GameState) : GameState :=
  fold_left (fun st o => step o st) ops s.

(** The states a session can be in: the first render, and whatever any
    operation makes of such a state. *)
Inductive reachable (stored : option Z) : GameState -> Prop :=
| reachable_init : reachable stored (initialState stored)
| reachable_step : forall o s, reachable stored s -> reachable stored (step o s).

End Game.

(** ** The selection sum in the words of the specification *)

(** The value an id stands for: the value of its block, and 0 when no
    block carries the id. *)
Definition valueOf (bs : list Block) (i : string) : Z :=
  match find (fun b => String.eqb (id b) i) bs with
  | Some b => value b
  | None => 0
  end.

Definition sumZ (xs : list Z) : Z := fold_right Z.add 0 xs.

(** [Σ value(b) for b in S] *)
Definition selectionSum (selected : list string) (bs : list Block) : Z :=
  sumZ (map (valueOf bs) selected).

(** The blocks that the selected ids find, in selection order; an id that
    finds none is left out. *)
Definition matchingBlocks (selected : list string) (bs : list Block) : list Block :=
  flat_map
    (fun i =>
       match find (fun b => String.eqb (id b) i) bs with
       | Some b => [b]
       | None => []
       end)
    selected.

(** What two block lists must share to agree on a selection: the ids and
    values of the blocks whose ids are selected, in list order. *)
Definition selectedPart (selected : list string) (bs : list Block) : list (string * Z) :=
  map (fun b => (id b, value b)) (filter (fun b => includes selected (id b)) bs).

(** The value [highScore || 0] that the code compares scores with. *)
Definition highScoreValue (s : GameState) : Z := orZero (highScore s).

(** The points of one success. *)
Definition pointsOf (s : GameState) : Z :=
  Z.of_nat (length (selectedIds s)) * 10
  + match mode s with
    | time => Qfloor (timeLeft s)
    | classic => 0
    end.

(** The blocks that a success leaves in the grid before any row is added. *)
Definition remainingOf (s : GameState) : list Block :=
  filter (fun b => negb (includes (selectedIds s) (id b))) (blocks s).


(** ** Vocabulary of the further properties *)

(** [Math.random()] returns a number in the interval from 0 (included) to
    1 (excluded). *)
Definition unitRandom (W : Runtime) : Prop :=
  forall k, (0 <= random W k)%Q /\ (random W k < 1)%Q.

(** The grid cell a block is drawn in. *)
Definition cellOf (b : Block) : Z * Z := (row b, col b).

(** The cells of [rows] full rows of [cols] columns, row by row. *)
Definition gridCells (rows cols : nat) : list (Z * Z) :=
  flat_map (fun r => map (fun c => (Z.of_nat r, Z.of_nat c)) (seq 0 cols)) (seq 0 rows).

(** The operations that the code guards by [status === 'playing']: block
    clicks, timer ticks and the refill of an empty grid. *)
Definition needsPlaying (o : Op) : bool :=
  match o with
  | Click _ | Tick | Refill => true
  | _ => false
  end.

(** The operations that begin a new game. *)
Definition startsGame (o : Op) : bool :=
  match o with
  | Start _ | Retry => true
  | _ => false
  end.

(** The game screen is rendered when the status is neither [idle] nor
    [gameover]. *)
Definition onGameScreen (s : GameState) : bool :=
  negb (statusIs (status s) idle) && negb (statusIs (status s) gameover).

(** What the page rendered from state [s] lets the player do: only a
    block of the grid can be clicked, the pause button belongs to the game
    screen and the resume button to the pause overlay. Every other
    operation is left free. Elements of an earlier render that are still
    animating out are not considered. *)
Definition offered (s : GameState) (o : Op) : Prop :=
  match o with
  | Click i => In i (map id (blocks s))
  | TogglePause => onGameScreen s = true
  | Resume => status s = paused
  | _ => True
  end.

(** The states of a session driven through the rendered page. *)
Inductive session (K : Constants) (W : Runtime) (stored : option Z) : GameState -> Prop :=
| session_init : session K W stored (initialState K stored)
| session_step : forall o s,
    session K W stored s -> offered s o -> session K W stored (step K W o s).

(** The time-left interval that the timer keeps. *)
Definition timeInBounds (K : Constants) (s : GameState) : Prop :=
  (- (1 # 10) < timeLeft s)%Q /\ (timeLeft s <= TIME_LIMIT K)%Q.

(** Every block lies in a column of the grid at a row from 0 on, and no
    two blocks share a cell. *)
Definition gridWellFormed (K : Constants) (bs : list Block) : Prop :=
  Forall (fun b => 0 <= row b /\ 0 <= col b < Z.of_nat (GRID_COLS K)) bs
  /\ NoDup (map cellOf bs).
(** ** The countdown on the doubles of the code *)

Module DoubleTimer.
Import PrimFloat.

(** The updater that the interval passes to [setTimeLeft], on binary64:
    [None] is the branch of [prev <= 0], which adds the row and returns
    [TIME_LIMIT]; [Some t] is the branch [return prev - 0.1]. *)
Definition timerUpdate (prev : float) : option float :=
  if (prev <=? 0)%float then None else Some (prev - 0.1)%float.

(** The time left after [k] ticks that all decremented, from [t]; [None]
    when one of the [k] ticks found the time up. *)
Fixpoint afterTicks (k : nat) (t : float) : option float :=
  match k with
  | O => Some t
  | S k' =>
      match afterTicks k' t with
      | Some t' => timerUpdate t'
      | None => None
      end
  end.

End DoubleTimer.

(** ** A sample configuration, for concrete runs *)

Definition sampleConstants : Constants :=
  {| GRID_COLS := 6; GRID_ROWS_MAX := 10; INITIAL_ROWS := 4;
     MIN_VALUE := 1; MAX_VALUE := 9;
     TARGET_SUM_MIN := 10; TARGET_SUM_MAX := 20;
     TIME_LIMIT := 10 # 1 |}.

Fixpoint digits (fuel n : nat) (acc : string) : string :=
  match fuel with
  | O => acc
  | S fuel' =>
      let d := String (Ascii.ascii_of_nat (48 + Nat.modulo n 10)) EmptyString in
      if (n <? 10)%nat then append d acc
      else digits fuel' (Nat.div n 10) (append d acc)
  end.

(** A random source that cycles through the multiples of 1/101 in the
    order 0, 37, 74, 10, ..., printed as "0." followed by the numerator. *)
Definition sampleRuntime : Runtime :=
  {| random := fun k => Z.of_nat (Nat.modulo (37 * k) 101) # 101;
     toString36 := fun x => append "0." (digits 10 (Z.to_nat (Qnum x)) EmptyString) |}.

(** A classic session in which the blocks "60" (value 9) and "40"
    (value 7) are selected and the target is 16. *)
Definition sampleClassic : GameState :=
  run sampleConstants sampleRuntime
    [Start classic; Click "60"; Click "40"]
    (initialState sampleConstants None).

(** The same selection in time mode. *)
Definition sampleTimed : GameState :=
  run sampleConstants sampleRuntime
    [Start time; Click "60"; Click "40"]
    (initialState sampleConstants None).

(** A time-mode session with nothing selected and [t] seconds left. *)
Definition sampleCountdown (t : Q) : GameState :=
  setTimeLeft t
    (run sampleConstants sampleRuntime [Start time] (initialState sampleConstants None)).

(** The scenario of the specification: blocks of values 3, 5 and 2 at
    distinct ids and the target 5, while playing. *)
Definition scenarioBlocks : list Block :=
  [ mkBlock "a" 3 0 0 None; mkBlock "b" 5 0 1 None; mkBlock "c" 2 0 2 None ].

Definition scenario (m : GameMode) : GameState :=
  mkState scenarioBlocks 5 0 None playing m (TIME_LIMIT sampleConstants) [] false 0 0.

Definition play (ops : list Op) (s : GameState) : GameState :=
  run sampleConstants sampleRuntime ops s.

(** * Properties *)

Section Properties.

Variable K : Constants.
Variable W : Runtime.

(** ** The generator *)

Lemma createBlock_draws (r c : Z) (n : nat) :
  snd (createBlock K W r c n) = S (S n).
Proof. reflexivity. Qed.

Lemma createBlock_row (r c : Z) (n : nat) :
  row (fst (createBlock K W r c n)) = r.
Proof. reflexivity. Qed.

Lemma createBlock_col (r c : Z) (n : nat) :
  col (fst (createBlock K W r c n)) = c.
Proof. reflexivity. Qed.

Lemma forEach_cons {A : Type} (c : nat) (cs : list nat) (body : nat -> Rand A) (n : nat) :
  forEach (c :: cs) body n =
  (fst (body c n) :: fst (forEach cs body (snd (body c n))),
   snd (forEach cs body (snd (body c n)))).
Proof.
  simpl. unfold bind, ret.
  destruct (body c n) as [b n1]. simpl.
  destruct (forEach cs body n1) as [bs n2]. reflexivity.
Qed.

Lemma forEach_length {A : Type} (cs : list nat) (body : nat -> Rand A) :
  forall n, length (fst (forEach cs body n)) = length cs.
Proof.
  induction cs as [| c cs IH]; intro n.
  - reflexivity.
  - rewrite forEach_cons. simpl. now rewrite IH.
Qed.

(** The loop that fills one row: the block of column [first + k] is made
    from the two draws that follow the [2 * k] draws of the columns before. *)
Lemma newRow_nth (r : Z) (len : nat) :
  forall first n k,
    (k < len)%nat ->
    nth_error
      (fst (forEach (seq first len) (fun c => createBlock K W r (Z.of_nat c)) n)) k
    = Some (fst (createBlock K W r (Z.of_nat (first + k)) (n + 2 * k)%nat)).
Proof.
  induction len as [| len IH]; intros first n k Hk.
  - lia.
  - cbn [seq]. rewrite forEach_cons. destruct k as [| k].
    + simpl. now rewrite Nat.add_0_r, Nat.add_0_r.
    + cbn [nth_error fst]. rewrite createBlock_draws, IH by lia.
      do 3 f_equal; lia.
Qed.

Lemma addNewRow_fst (bs : list Block) (n : nat) :
  fst (addNewRow K W bs n) =
  map shiftUp bs
  ++ fst (forEach (seq 0 (GRID_COLS K)) (fun c => createBlock K W 0 (Z.of_nat c)) n).
Proof.
  unfold addNewRow, bind, ret.
  destruct (forEach _ _ n) as [newRow n']. reflexivity.
Qed.

Lemma addNewRow_length (bs : list Block) (n : nat) :
  length (fst (addNewRow K W bs n)) = (length bs + GRID_COLS K)%nat.
Proof.
  rewrite addNewRow_fst, length_app, length_map, forEach_length, length_seq.
  reflexivity.
Qed.

(** C2. [addNewRow] keeps every block that was there, at its position,
    with its id, value and column, and with its row raised by exactly one;
    after them come exactly [GRID_COLS] freshly created blocks, one per
    column, at row 0; nothing else is in the result. *)
Theorem addNewRow_shifts_and_appends :
  forall (bs : list Block) (n : nat),
    let result := fst (addNewRow K W bs n) in
    length result = (length bs + GRID_COLS K)%nat
    /\ (forall k b,
          nth_error bs k = Some b ->
          exists b',
            nth_error result k = Some b'
            /\ id b' = id b /\ value b' = value b /\ col b' = col b
            /\ row b' = row b + 1)
    /\ (forall c,
          (c < GRID_COLS K)%nat ->
          exists b',
            nth_error result (length bs + c) = Some b'
            /\ b' = fst (createBlock K W 0 (Z.of_nat c) (n + 2 * c)%nat)
            /\ row b' = 0 /\ col b' = Z.of_nat c).
Proof.
  intros bs n result. subst result. split; [| split].
  - apply addNewRow_length.
  - intros k b Hk. exists (shiftUp b). split.
    + rewrite addNewRow_fst, nth_error_app1.
      * now rewrite nth_error_map, Hk.
      * rewrite length_map. apply nth_error_Some. congruence.
    + now simpl.
  - intros c Hc. eexists. split; [| split; [reflexivity | split; reflexivity]].
    rewrite addNewRow_fst, nth_error_app2 by (rewrite length_map; lia).
    rewrite length_map.
    replace (length bs + c - length bs)%nat with c by lia.
    now rewrite newRow_nth.
Qed.

(** ** Selecting blocks *)

Lemma includes_In (ids : list string) (i : string) :
  includes ids i = true <-> In i ids.
Proof.
  unfold includes. rewrite existsb_exists. split.
  - intros [j [Hj E]]. apply String.eqb_eq in E. now subst.
  - intro H. exists i. split; [assumption | apply String.eqb_refl].
Qed.

Lemma includes_not_In (ids : list string) (i : string) :
  includes ids i = false <-> ~ In i ids.
Proof.
  rewrite <- includes_In. destruct (includes ids i); split; congruence.
Qed.

(** [prev.filter(j => j !== i)] removes every occurrence of [i]. *)
Lemma filter_neq_remove (i : string) (ids : list string) :
  filter (fun j => negb (String.eqb j i)) ids = remove string_dec i ids.
Proof.
  induction ids as [| j ids IH]; simpl.
  - reflexivity.
  - destruct (string_dec i j) as [E | N].
    + subst. now rewrite String.eqb_refl.
    + destruct (String.eqb_spec j i) as [E | _]; [congruence |].
      simpl. now rewrite IH.
Qed.

Lemma statusIs_playing (st : GameStatus) :
  statusIs st playing = true <-> st = playing.
Proof. destruct st; simpl; split; congruence. Qed.

Lemma modeIs_eq (a b : GameMode) : modeIs a b = true <-> a = b.
Proof. destruct a, b; simpl; split; congruence. Qed.

(** C8. A click on a block toggles its id: while the status is [playing],
    an id that is selected is removed from [selectedIds] and an id that is
    not selected is appended at the end, and no other part of the state
    changes; under any other status the click changes nothing at all. *)
Theorem handleBlockClick_toggles :
  forall (i : string) (s : GameState),
    let s' := handleBlockClick i s in
    (status s = playing ->
       (In i (selectedIds s) ->
          selectedIds s' = remove string_dec i (selectedIds s)
          /\ ~ In i (selectedIds s'))
       /\ (~ In i (selectedIds s) -> selectedIds s' = selectedIds s ++ [i])
       /\ s' = setSelectedIds (selectedIds s') s)
    /\ (status s <> playing -> s' = s).
Proof.
  intros i s s'. subst s'. unfold handleBlockClick. split.
  - intro Hp. rewrite Hp. cbn [statusIs negb]. split; [| split].
    + intro Hin. apply includes_In in Hin. rewrite Hin. cbn.
      rewrite filter_neq_remove. split; [reflexivity | apply remove_In].
    + intro Hout. apply includes_not_In in Hout. now rewrite Hout.
    + reflexivity.
  - intro Hn. destruct (statusIs (status s) playing) eqn:E.
    + apply statusIs_playing in E. contradiction.
    + reflexivity.
Qed.

(** The toggle never selects an id twice. *)
Lemma handleBlockClick_NoDup (i : string) (s : GameState) :
  NoDup (selectedIds s) -> NoDup (selectedIds (handleBlockClick i s)).
Proof.
  intro H. unfold handleBlockClick.
  destruct (negb (statusIs (status s) playing)); [assumption |].
  destruct (includes (selectedIds s) i) eqn:E; cbn.
  - now apply NoDup_filter.
  - apply includes_not_In in E. apply NoDup_app.
    + assumption.
    + repeat constructor. intros [].
    + intros j Hj [Ej | []]. subst. contradiction.
Qed.

(** ** The selection sum *)

Lemma orZero_Some (v : Z) : orZero (Some v) = v.
Proof.
  unfold orZero. destruct (Z.eqb_spec v 0); congruence.
Qed.

(** What one selected id adds to the running sum. *)
Lemma contribution_valueOf (bs : list Block) (i : string) :
  orZero (option_map value (find (fun b => String.eqb (id b) i) bs)) = valueOf bs i.
Proof.
  unfold valueOf. destruct (find _ bs) as [b |]; simpl.
  - destruct (Z.eqb_spec (value b) 0); congruence.
  - reflexivity.
Qed.

Lemma fold_left_running_sum {A : Type} (f : A -> Z) (xs : list A) :
  forall acc, fold_left (fun sum x => sum + f x) xs acc = acc + sumZ (map f xs).
Proof.
  induction xs as [| x xs IH]; intro acc; simpl.
  - lia.
  - rewrite IH. lia.
Qed.

Lemma sumZ_app (xs ys : list Z) : sumZ (xs ++ ys) = sumZ xs + sumZ ys.
Proof.
  induction xs as [| x xs IH]; simpl; [reflexivity | rewrite IH; lia].
Qed.

Lemma fold_left_ext_in {A B : Type} (f g : A -> B -> A) (xs : list B) :
  (forall acc x, In x xs -> f acc x = g acc x) ->
  forall acc, fold_left f xs acc = fold_left g xs acc.
Proof.
  induction xs as [| x xs IH]; intros H acc; simpl.
  - reflexivity.
  - rewrite H by now left. apply IH. intros a y Hy. apply H. now right.
Qed.

(** The reduction of the code computes the sum of the specification. *)
Lemma currentSum_selectionSum (selected : list string) (bs : list Block) :
  currentSum selected bs = selectionSum selected bs.
Proof.
  unfold currentSum, selectionSum.
  rewrite fold_left_ext_in with (g := fun sum i => sum + valueOf bs i).
  - now rewrite fold_left_running_sum.
  - intros sum i _. now rewrite contribution_valueOf.
Qed.

Lemma selectionSum_app (xs ys : list string) (bs : list Block) :
  selectionSum (xs ++ ys) bs = selectionSum xs bs + selectionSum ys bs.
Proof.
  unfold selectionSum. now rewrite map_app, sumZ_app.
Qed.

Lemma find_none_of_no_match (bs : list Block) (i : string) :
  (forall b, In b bs -> id b <> i) ->
  find (fun b => String.eqb (id b) i) bs = None.
Proof.
  intro H. destruct (find _ bs) as [b |] eqn:E; [| reflexivity].
  apply find_some in E. destruct E as [Hin Heq].
  apply String.eqb_eq in Heq. now apply H in Hin.
Qed.

Lemma selectionSum_matchingBlocks (selected : list string) (bs : list Block) :
  selectionSum selected bs = sumZ (map value (matchingBlocks selected bs)).
Proof.
  unfold selectionSum, matchingBlocks.
  induction selected as [| i selected IH]; simpl.
  - reflexivity.
  - rewrite map_app, sumZ_app, IH. unfold valueOf.
    destruct (find _ bs); simpl; lia.
Qed.

(** C9. The selection sum is a total function of the selection and the
    block list: it is the sum of the values of the blocks that the selected
    ids find, and a selected id that matches no block adds exactly 0,
    wherever it stands in the selection. *)
Theorem currentSum_tolerates_stale_ids :
  forall (selected : list string) (bs : list Block),
    currentSum selected bs = sumZ (map value (matchingBlocks selected bs))
    /\ (forall before i after,
          selected = before ++ i :: after ->
          (forall b, In b bs -> id b <> i) ->
          matchingBlocks selected bs = matchingBlocks (before ++ after) bs
          /\ currentSum selected bs = currentSum (before ++ after) bs).
Proof.
  intros selected bs. split.
  - now rewrite currentSum_selectionSum, selectionSum_matchingBlocks.
  - intros before i after -> Hstale.
    apply find_none_of_no_match in Hstale.
    assert (Hm : matchingBlocks (before ++ i :: after) bs
                 = matchingBlocks (before ++ after) bs).
    { unfold matchingBlocks. rewrite !flat_map_app. cbn [flat_map].
      now rewrite Hstale. }
    split; [exact Hm |].
    now rewrite !currentSum_selectionSum, !selectionSum_matchingBlocks, Hm.
Qed.

(** ** Blocks that are not selected *)

Lemma find_selectedPart (selected : list string) (bs : list Block) (i : string) :
  includes selected i = true ->
  option_map value (find (fun b => String.eqb (id b) i) bs)
  = option_map snd (find (fun p => String.eqb (fst p) i) (selectedPart selected bs)).
Proof.
  intro Hi. unfold selectedPart.
  induction bs as [| b bs IH]; simpl.
  - reflexivity.
  - destruct (String.eqb_spec (id b) i) as [E | N].
    + subst i. rewrite Hi. cbn [map find fst snd option_map].
      now rewrite String.eqb_refl.
    + destruct (includes selected (id b)); simpl.
      * destruct (String.eqb_spec (id b) i); [contradiction | exact IH].
      * exact IH.
Qed.

Lemma currentSum_selectedPart (selected : list string) (bs1 bs2 : list Block) :
  selectedPart selected bs1 = selectedPart selected bs2 ->
  currentSum selected bs1 = currentSum selected bs2.
Proof.
  intro H. unfold currentSum. apply fold_left_ext_in.
  intros acc i Hi. apply includes_In in Hi.
  now rewrite !find_selectedPart with (selected := selected), H.
Qed.

Lemma selectedPart_without (selected : list string) (front back : list Block) (b : Block) :
  includes selected (id b) = false ->
  selectedPart selected (front ++ b :: back) = selectedPart selected (front ++ back).
Proof.
  intro H. unfold selectedPart. rewrite !filter_app. cbn [filter]. now rewrite H.
Qed.

(** C10. The outcome of the selection check depends only on the blocks
    whose ids are selected: two block lists that agree on those blocks (the
    same ids with the same values, in the same order) give the same sum
    and the same signal,
    so a block whose id is not selected can be added to or removed from the
    list, at any position, without changing the outcome. *)
Theorem unselected_blocks_do_not_interfere :
  forall (selected : list string) (target : Z),
    (forall bs1 bs2,
       selectedPart selected bs1 = selectedPart selected bs2 ->
       currentSum selected bs1 = currentSum selected bs2
       /\ evaluate selected bs1 target = evaluate selected bs2 target)
    /\ (forall front b back,
          includes selected (id b) = false ->
          currentSum selected (front ++ b :: back) = currentSum selected (front ++ back)
          /\ evaluate selected (front ++ b :: back) target
             = evaluate selected (front ++ back) target).
Proof.
  intros selected target.
  assert (Hagree : forall bs1 bs2,
             selectedPart selected bs1 = selectedPart selected bs2 ->
             currentSum selected bs1 = currentSum selected bs2
             /\ evaluate selected bs1 target = evaluate selected bs2 target).
  { intros bs1 bs2 H. apply currentSum_selectedPart in H.
    split; [exact H |]. unfold evaluate. now rewrite H. }
  split; [exact Hagree |].
  intros front b back Hb. apply Hagree. now apply selectedPart_without.
Qed.

(** ** The selection check *)

Lemma evaluate_Success (selected : list string) (bs : list Block) (target : Z) :
  evaluate selected bs target = Success <-> selectionSum selected bs = target.
Proof.
  unfold evaluate. rewrite currentSum_selectionSum.
  destruct (Z.eqb_spec (selectionSum selected bs) target) as [E | N].
  - tauto.
  - destruct (selectionSum selected bs >? target); split; congruence.
Qed.

Lemma evaluate_Overshoot (selected : list string) (bs : list Block) (target : Z) :
  evaluate selected bs target = Overshoot <-> selectionSum selected bs > target.
Proof.
  unfold evaluate. rewrite currentSum_selectionSum.
  destruct (Z.eqb_spec (selectionSum selected bs) target) as [E | N].
  - split; [congruence | lia].
  - destruct (selectionSum selected bs >? target) eqn:G.
    + apply Z.gtb_gt in G. tauto.
    + split; [congruence |]. intro H. apply Z.gtb_gt in H. congruence.
Qed.

Lemma evaluate_Pending (selected : list string) (bs : list Block) (target : Z) :
  evaluate selected bs target = Pending <-> selectionSum selected bs < target.
Proof.
  pose proof (evaluate_Success selected bs target) as HS.
  pose proof (evaluate_Overshoot selected bs target) as HO.
  destruct (evaluate selected bs target).
  - split; [congruence | intro]. assert (selectionSum selected bs = target) by tauto. lia.
  - split; [congruence | intro]. assert (selectionSum selected bs > target) by tauto. lia.
  - split; [intros _ | reflexivity].
    assert (selectionSum selected bs <> target) by (intro E; apply HS in E; congruence).
    assert (~ selectionSum selected bs > target) by (intro E; apply HO in E; congruence).
    lia.
Qed.

Lemma selectionEffect_nonempty (s : GameState) :
  selectedIds s <> [] ->
  selectionEffect K W s =
  match evaluate (selectedIds s) (blocks s) (targetSum s) with
  | Success => handleSuccess K W s
  | Overshoot => flagWrong s
  | Pending => s
  end.
Proof.
  intro H. unfold selectionEffect.
  destruct (selectedIds s); [contradiction | reflexivity].
Qed.

(** C1. For a non-empty selection the check gives exactly one of three
    signals, decided by the sum of the values of the selected blocks:
    Success (the success handler runs) iff the sum equals the target;
    Overshoot iff the sum is greater than the target, and then the
    selection is flagged wrong and a pending timeout clears the flag and
    the selection; Pending iff the sum is smaller, and then the state is
    unchanged. *)
Theorem selection_check_signals :
  forall (s : GameState),
    selectedIds s <> [] ->
    let sum := selectionSum (selectedIds s) (blocks s) in
    let signal := evaluate (selectedIds s) (blocks s) (targetSum s) in
    let s' := selectionEffect K W s in
    (signal = Success <-> sum = targetSum s)
    /\ (signal = Overshoot <-> sum > targetSum s)
    /\ (signal = Pending <-> sum < targetSum s)
    /\ (signal = Success \/ signal = Overshoot \/ signal = Pending)
    /\ (signal = Success -> s' = handleSuccess K W s)
    /\ (signal = Overshoot ->
          s' = setPendingClears (S (pendingClears s)) (setIsWrong true s)
          /\ isWrong s' = true
          /\ selectedIds s' = selectedIds s
          /\ isWrong (overshootTimeout s') = false
          /\ selectedIds (overshootTimeout s') = []
          /\ score (overshootTimeout s') = score s)
    /\ (signal = Pending -> s' = s).
Proof.
  intros s Hne sum signal s'. subst sum signal s'.
  rewrite (selectionEffect_nonempty s Hne).
  split; [apply evaluate_Success |].
  split; [apply evaluate_Overshoot |].
  split; [apply evaluate_Pending |].
  split; [destruct (evaluate _ _ _); auto |].
  split; [| split].
  - intros ->. reflexivity.
  - intros ->. unfold flagWrong. repeat split.
  - intros ->. reflexivity.
Qed.

(** ** The success handler *)

Ltac run_handleSuccess s :=
  unfold handleSuccess, pointsOf, remainingOf;
  cbn [setScore blocks draws];
  destruct (mode s); cbn [modeIs];
  repeat match goal with
         | |- context [addNewRow ?k ?w ?bs ?n] => destruct (addNewRow k w bs n)
         | |- context [generateTargetSum ?k ?w ?n] => destruct (generateTargetSum k w n)
         | |- context [checkGameOver ?bs ?m] => destruct (checkGameOver bs m)
         | |- context [?a >? ?b] => destruct (a >? b)
         end;
  cbn [fst snd];
  try reflexivity.

Lemma handleSuccess_score (s : GameState) :
  score (handleSuccess K W s) = score s + pointsOf s.
Proof. run_handleSuccess s. Qed.

Lemma handleSuccess_highScore (s : GameState) :
  highScore (handleSuccess K W s) =
  if score s + pointsOf s >? orZero (highScore s)
  then Some (score s + pointsOf s)
  else highScore s.
Proof.
  unfold handleSuccess, pointsOf.
  destruct (mode s); cbn [modeIs];
    repeat match goal with
           | |- context [addNewRow ?k ?w ?bs ?n] => destruct (addNewRow k w bs n)
           | |- context [generateTargetSum ?k ?w ?n] => destruct (generateTargetSum k w n)
           | |- context [checkGameOver ?bs ?m] => destruct (checkGameOver bs m)
           end;
    match goal with |- context [?a >? ?b] => destruct (a >? b) end;
    reflexivity.
Qed.

Lemma handleSuccess_selectedIds (s : GameState) :
  selectedIds (handleSuccess K W s) = [].
Proof. run_handleSuccess s. Qed.

Lemma handleSuccess_blocks (s : GameState) :
  blocks (handleSuccess K W s) =
  match mode s with
  | classic => fst (addNewRow K W (remainingOf s) (draws s))
  | time => remainingOf s
  end.
Proof. run_handleSuccess s. Qed.

Lemma handleSuccess_status (s : GameState) :
  status (handleSuccess K W s) =
  match mode s with
  | classic =>
      if checkGameOver (fst (addNewRow K W (remainingOf s) (draws s))) (GRID_ROWS_MAX K)
      then gameover else status s
  | time => status s
  end.
Proof.
  unfold handleSuccess, remainingOf.
  cbn [setScore blocks draws].
  destruct (mode s); cbn [modeIs];
    repeat match goal with
           | |- context [addNewRow ?k ?w ?bs ?n] => destruct (addNewRow k w bs n)
           | |- context [generateTargetSum ?k ?w ?n] => destruct (generateTargetSum k w n)
           | |- context [?a >? ?b] => destruct (a >? b)
           end;
    cbn [fst];
    try match goal with |- context [checkGameOver ?bs ?m] => destruct (checkGameOver bs m) end;
    reflexivity.
Qed.

Lemma handleSuccess_timeLeft (s : GameState) :
  timeLeft (handleSuccess K W s) =
  match mode s with
  | classic => timeLeft s
  | time => TIME_LIMIT K
  end.
Proof. run_handleSuccess s. Qed.

Lemma handleSuccess_mode (s : GameState) :
  mode (handleSuccess K W s) = mode s.
Proof.
  unfold handleSuccess. cbn [setScore blocks draws].
  destruct (mode s) eqn:E; cbn [modeIs];
    repeat match goal with
           | |- context [addNewRow ?k ?w ?bs ?n] => destruct (addNewRow k w bs n)
           | |- context [generateTargetSum ?k ?w ?n] => destruct (generateTargetSum k w n)
           | |- context [checkGameOver ?bs ?m] => destruct (checkGameOver bs m)
           | |- context [?a >? ?b] => destruct (a >? b)
           end;
    exact E.
Qed.

Lemma selectionEffect_Success (s : GameState) :
  selectedIds s <> [] ->
  evaluate (selectedIds s) (blocks s) (targetSum s) = Success ->
  selectionEffect K W s = handleSuccess K W s.
Proof.
  intros Hne Hs. now rewrite selectionEffect_nonempty, Hs.
Qed.

(** C6. On every Success the points are ten per selected id, plus the
    whole seconds left in time mode and nothing in classic mode; the new
    score is the old score plus the points; and the new score is written
    as the high score exactly when it is greater than the stored high
    score, which is kept otherwise. *)
Theorem success_scores_and_high_score :
  forall (s : GameState),
    selectedIds s <> [] ->
    evaluate (selectedIds s) (blocks s) (targetSum s) = Success ->
    let points :=
      Z.of_nat (length (selectedIds s)) * 10
      + match mode s with
        | time => Qfloor (timeLeft s)
        | classic => 0
        end in
    let s' := selectionEffect K W s in
    score s' = score s + points
    /\ (score s' > highScoreValue s -> highScore s' = Some (score s'))
    /\ (score s' <= highScoreValue s -> highScore s' = highScore s).
Proof.
  intros s Hne Hs points s'. subst points s'.
  rewrite (selectionEffect_Success s Hne Hs).
  rewrite handleSuccess_score, handleSuccess_highScore.
  fold (pointsOf s). unfold highScoreValue.
  split; [reflexivity |].
  destruct (score s + pointsOf s >? orZero (highScore s)) eqn:G.
  - apply Z.gtb_gt in G. split; [reflexivity | lia].
  - split; [| reflexivity]. intro H. apply Z.gtb_gt in H. congruence.
Qed.

(** ** Counting the blocks a success removes *)

Lemma filter_split_length {A : Type} (p : A -> bool) (xs : list A) :
  (length (filter p xs) + length (filter (fun x => negb (p x)) xs) = length xs)%nat.
Proof.
  induction xs as [| x xs IH]; simpl.
  - reflexivity.
  - destruct (p x); simpl; lia.
Qed.

Lemma filter_either_length {A : Type} (p q : A -> bool) (xs : list A) :
  (forall x, In x xs -> p x = true -> q x = true -> False) ->
  length (filter (fun x => p x || q x) xs)
  = (length (filter p xs) + length (filter q xs))%nat.
Proof.
  induction xs as [| x xs IH]; intro Hdisj; simpl.
  - reflexivity.
  - assert (IH' := IH (fun y Hy => Hdisj y (or_intror Hy))).
    destruct (p x) eqn:Ep, (q x) eqn:Eq; simpl; try lia.
    exfalso. apply (Hdisj x); auto. now left.
Qed.

Lemma blocks_with_id_length (i : string) (bs : list Block) :
  length (filter (fun b => String.eqb (id b) i) bs)
  = count_occ string_dec (map id bs) i.
Proof.
  induction bs as [| b bs IH]; simpl.
  - reflexivity.
  - destruct (string_dec (id b) i) as [E | N].
    + subst i. rewrite String.eqb_refl. simpl. now rewrite IH.
    + destruct (String.eqb_spec (id b) i); [contradiction | exact IH].
Qed.

(** When the selection repeats no id and each of its ids belongs to
    exactly one block, it selects as many blocks as it has ids. *)
Lemma selected_blocks_length (selected : list string) (bs : list Block) :
  NoDup selected ->
  (forall i, In i selected -> count_occ string_dec (map id bs) i = 1%nat) ->
  length (filter (fun b => includes selected (id b)) bs) = length selected.
Proof.
  induction selected as [| i selected IH]; intros Hnd Hone.
  - unfold includes. simpl. clear Hone.
    induction bs as [| b bs IHbs]; simpl; auto.
  - inversion Hnd as [| ? ? Hnotin Hnd']; subst.
    cbn [includes existsb length].
    rewrite filter_either_length.
    + rewrite blocks_with_id_length, Hone by now left.
      cbn [Nat.add]. f_equal. apply IH; [assumption |].
      intros j Hj. apply Hone. now right.
    + intros b _ E1 E2. apply String.eqb_eq in E1.
      fold (includes selected (id b)) in E2. apply includes_In in E2.
      congruence.
Qed.

Lemma remainingOf_length (s : GameState) :
  NoDup (selectedIds s) ->
  (forall i, In i (selectedIds s) ->
             count_occ string_dec (map id (blocks s)) i = 1%nat) ->
  (length (remainingOf s) + length (selectedIds s) = length (blocks s))%nat.
Proof.
  intros Hnd Hone. unfold remainingOf.
  rewrite <- (filter_split_length (fun b => includes (selectedIds s) (id b)) (blocks s)).
  rewrite selected_blocks_length by assumption. lia.
Qed.

Lemma checkGameOver_spec (bs : list Block) (maxRows : Z) :
  checkGameOver bs maxRows = true <-> exists b, In b bs /\ row b >= maxRows.
Proof.
  unfold checkGameOver. rewrite existsb_exists.
  split; intros [b [Hb Hr]]; exists b; split; try assumption.
  - apply Z.geb_le in Hr. lia.
  - apply Z.geb_le. lia.
Qed.

(** ** What each operation does to the selection and to the high score *)

Lemma startGame_selectedIds (m : GameMode) (s : GameState) :
  selectedIds (startGame K W m s) = [].
Proof.
  unfold startGame.
  destruct (generateInitialBlocks K W _ _) as [bs n1].
  destruct (generateTargetSum K W n1) as [t n2]. reflexivity.
Qed.

Lemma startGame_highScore (m : GameMode) (s : GameState) :
  highScore (startGame K W m s) = highScore s.
Proof.
  unfold startGame.
  destruct (generateInitialBlocks K W _ _) as [bs n1].
  destruct (generateTargetSum K W n1) as [t n2]. reflexivity.
Qed.

Lemma tick_selectedIds (s : GameState) :
  selectedIds (tick K W s) = selectedIds s.
Proof.
  unfold tick.
  destruct (statusIs (status s) playing && modeIs (mode s) time); [| reflexivity].
  destruct (Qle_bool (timeLeft s) 0); [| reflexivity].
  destruct (addNewRow K W (blocks s) (draws s)) as [bs n].
  destruct (checkGameOver bs (GRID_ROWS_MAX K)); reflexivity.
Qed.

Lemma tick_highScore (s : GameState) :
  highScore (tick K W s) = highScore s.
Proof.
  unfold tick.
  destruct (statusIs (status s) playing && modeIs (mode s) time); [| reflexivity].
  destruct (Qle_bool (timeLeft s) 0); [| reflexivity].
  destruct (addNewRow K W (blocks s) (draws s)) as [bs n].
  destruct (checkGameOver bs (GRID_ROWS_MAX K)); reflexivity.
Qed.

Lemma refillEffect_selectedIds (s : GameState) :
  selectedIds (refillEffect K W s) = selectedIds s.
Proof.
  unfold refillEffect.
  destruct (statusIs (status s) playing && (length (blocks s) =? 0)%nat); [| reflexivity].
  destruct (generateInitialBlocks K W _ _) as [bs n]. reflexivity.
Qed.

Lemma refillEffect_highScore (s : GameState) :
  highScore (refillEffect K W s) = highScore s.
Proof.
  unfold refillEffect.
  destruct (statusIs (status s) playing && (length (blocks s) =? 0)%nat); [| reflexivity].
  destruct (generateInitialBlocks K W _ _) as [bs n]. reflexivity.
Qed.

Lemma handleBlockClick_highScore (i : string) (s : GameState) :
  highScore (handleBlockClick i s) = highScore s.
Proof.
  unfold handleBlockClick.
  destruct (negb (statusIs (status s) playing)); reflexivity.
Qed.

Lemma overshootTimeout_highScore (s : GameState) :
  highScore (overshootTimeout s) = highScore s.
Proof. unfold overshootTimeout. destruct (pendingClears s); reflexivity. Qed.

Lemma selectionEffect_highScoreValue (s : GameState) :
  highScoreValue s <= highScoreValue (selectionEffect K W s).
Proof.
  unfold selectionEffect, highScoreValue.
  destruct (length (selectedIds s) =? 0)%nat; [lia |].
  destruct (evaluate _ _ _); try (cbn; lia).
  rewrite handleSuccess_highScore.
  destruct (score s + pointsOf s >? orZero (highScore s)) eqn:G; [| lia].
  apply Z.gtb_gt in G. rewrite orZero_Some. lia.
Qed.

Lemma step_highScoreValue (o : Op) (s : GameState) :
  highScoreValue s <= highScoreValue (step K W o s).
Proof.
  destruct o; cbn [step];
    try apply selectionEffect_highScoreValue;
    unfold highScoreValue;
    rewrite ?startGame_highScore, ?tick_highScore, ?refillEffect_highScore,
      ?handleBlockClick_highScore, ?overshootTimeout_highScore;
    cbn; lia.
Qed.

Lemma run_snoc (ops : list Op) (o : Op) (s : GameState) :
  run K W (ops ++ [o]) s = step K W o (run K W ops s).
Proof. unfold run. now rewrite fold_left_app. Qed.

Lemma run_highScoreValue (ops : list Op) :
  forall s, highScoreValue s <= highScoreValue (run K W ops s).
Proof.
  induction ops as [| o ops IH]; intro s; cbn.
  - lia.
  - etransitivity; [apply (step_highScoreValue o) | apply IH].
Qed.

Lemma reachable_run (stored : option Z) (ops : list Op) :
  reachable K W stored (run K W ops (initialState K stored)).
Proof.
  induction ops as [| o ops IH] using rev_ind.
  - constructor.
  - rewrite run_snoc. now constructor.
Qed.

Lemma reachable_is_run (stored : option Z) (s : GameState) :
  reachable K W stored s -> exists ops, s = run K W ops (initialState K stored).
Proof.
  induction 1 as [| o s _ [ops ->]].
  - now exists [].
  - exists (ops ++ [o]). now rewrite run_snoc.
Qed.

(** C7. The high score never decreases: whatever the state, no operation
    of the session (start, retry, reset, block click, selection check with
    its success, overshoot timeout, tick, pause, resume, clear, refill)
    leaves a high score below the one it found, nor does any sequence of
    them; so every reachable state has a high score at least as large as
    the stored one the session began with. *)
Theorem highScore_never_decreases :
  forall (s : GameState),
    (forall o, highScoreValue s <= highScoreValue (step K W o s))
    /\ (forall ops, highScoreValue s <= highScoreValue (run K W ops s))
    /\ (forall stored, reachable K W stored s -> orZero stored <= highScoreValue s).
Proof.
  intro s. split; [| split].
  - intro o. apply step_highScoreValue.
  - intro ops. apply run_highScoreValue.
  - intros stored Hr. apply reachable_is_run in Hr. destruct Hr as [ops ->].
    apply (run_highScoreValue ops (initialState K stored)).
Qed.

(** The selection of a reachable state repeats no id. *)
Lemma reachable_NoDup (stored : option Z) (s : GameState) :
  reachable K W stored s -> NoDup (selectedIds s).
Proof.
  induction 1 as [| o s _ IH].
  - constructor.
  - destruct o; cbn [step].
    + rewrite startGame_selectedIds. constructor.
    + rewrite startGame_selectedIds. constructor.
    + constructor.
    + now apply handleBlockClick_NoDup.
    + unfold selectionEffect.
      destruct (length (selectedIds s) =? 0)%nat; [assumption |].
      destruct (evaluate _ _ _); [| assumption | assumption].
      rewrite handleSuccess_selectedIds. constructor.
    + unfold overshootTimeout. destruct (pendingClears s); [assumption | constructor].
    + now rewrite tick_selectedIds.
    + assumption.
    + assumption.
    + constructor.
    + now rewrite refillEffect_selectedIds.
Qed.

(** C3. After a Success in classic mode, in any state a session can
    reach, when every selected id occurs exactly once in the block list,
    the grid holds the blocks it held, less one per selected id, plus the
    [GRID_COLS] blocks of the new row; and the status becomes [gameover] if
    some block of the new grid is at row [GRID_ROWS_MAX] or above (it is
    unchanged otherwise). *)
Theorem classic_success_grid_size :
  forall (stored : option Z) (s : GameState),
    reachable K W stored s ->
    mode s = classic ->
    selectedIds s <> [] ->
    evaluate (selectedIds s) (blocks s) (targetSum s) = Success ->
    (forall i, In i (selectedIds s) ->
               count_occ string_dec (map id (blocks s)) i = 1%nat) ->
    let s' := selectionEffect K W s in
    Z.of_nat (length (blocks s'))
    = Z.of_nat (length (blocks s)) - Z.of_nat (length (selectedIds s))
      + Z.of_nat (GRID_COLS K)
    /\ ((exists b, In b (blocks s') /\ row b >= GRID_ROWS_MAX K) ->
        status s' = gameover)
    /\ ((forall b, In b (blocks s') -> row b < GRID_ROWS_MAX K) ->
        status s' = status s).
Proof.
  intros stored s Hr Hm Hne Hs Hone s'. subst s'.
  rewrite (selectionEffect_Success s Hne Hs).
  rewrite handleSuccess_blocks, handleSuccess_status, Hm.
  pose proof (remainingOf_length s (reachable_NoDup stored s Hr) Hone) as Hlen.
  split; [| split].
  - rewrite addNewRow_length. lia.
  - intro Hover. apply checkGameOver_spec in Hover. now rewrite Hover.
  - intro Hfit.
    destruct (checkGameOver _ _) eqn:E; [| reflexivity].
    apply checkGameOver_spec in E. destruct E as [b [Hb Hrow]].
    apply Hfit in Hb. lia.
Qed.


(** ** The timer *)

Lemma Qle_bool_false (x y : Q) : Qle_bool x y = false <-> (y < x)%Q.
Proof.
  split.
  - intro H. apply Qnot_le_lt. intro L. apply Qle_bool_iff in L. congruence.
  - intro H. destruct (Qle_bool x y) eqn:E; [| reflexivity].
    apply Qle_bool_iff in E. exfalso. exact (Qlt_not_le _ _ H E).
Qed.

Lemma tick_counting (s : GameState) :
  status s = playing -> mode s = time -> (0 < timeLeft s)%Q ->
  tick K W s = setTimeLeft (timeLeft s - (1 # 10))%Q s.
Proof.
  intros Hp Hm Ht. unfold tick. rewrite Hp, Hm. cbn [statusIs modeIs andb].
  apply Qle_bool_false in Ht. now rewrite Ht.
Qed.

Lemma tick_expired (s : GameState) :
  status s = playing -> mode s = time -> (timeLeft s <= 0)%Q ->
  tick K W s =
  setTimeLeft (TIME_LIMIT K)
    (setDraws (snd (addNewRow K W (blocks s) (draws s)))
      (setBlocks (fst (addNewRow K W (blocks s) (draws s)))
        (if checkGameOver (fst (addNewRow K W (blocks s) (draws s))) (GRID_ROWS_MAX K)
         then setStatus gameover s else s))).
Proof.
  intros Hp Hm Ht. unfold tick. rewrite Hp, Hm. cbn [statusIs modeIs andb].
  apply Qle_bool_iff in Ht. rewrite Ht.
  now destruct (addNewRow K W (blocks s) (draws s)).
Qed.

Lemma setTimeLeft_same (s : GameState) : setTimeLeft (timeLeft s) s = s.
Proof. now destruct s. Qed.

Lemma tick_expired_grid (s : GameState) :
  status s = playing -> mode s = time -> (timeLeft s <= 0)%Q ->
  blocks (tick K W s) = fst (addNewRow K W (blocks s) (draws s))
  /\ mode (tick K W s) = time
  /\ status (tick K W s)
     = if checkGameOver (fst (addNewRow K W (blocks s) (draws s))) (GRID_ROWS_MAX K)
       then gameover else playing.
Proof.
  intros Hp Hm Ht. rewrite (tick_expired s Hp Hm Ht).
  destruct (checkGameOver _ _); cbn; auto.
Qed.

Lemma timeLeft_tenths (t : Q) :
  (t <= Z.of_nat (10 * Z.to_nat (Qnum t)) # 10)%Q.
Proof.
  destruct t as [p q]. unfold Qle. cbn [Qnum Qden].
  destruct (Z_le_gt_dec p 0) as [Hp | Hp].
  - assert (0 <= Z.of_nat (10 * Z.to_nat p)) by lia.
    assert (0 < Z.pos q) by lia. nia.
  - rewrite Nat2Z.inj_mul, Z2Nat.id by lia.
    assert (1 <= Z.pos q) by lia. change (Z.of_nat 10) with 10. nia.
Qed.

(** While playing in time mode the ticks count down until no time is
    left, and touch nothing else on the way. *)
Lemma ticks_reach_zero (m : nat) :
  forall s,
    status s = playing -> mode s = time ->
    (timeLeft s <= Z.of_nat m # 10)%Q ->
    exists k,
      status (Nat.iter k (tick K W) s) = playing
      /\ mode (Nat.iter k (tick K W) s) = time
      /\ (timeLeft (Nat.iter k (tick K W) s) <= 0)%Q
      /\ blocks (Nat.iter k (tick K W) s) = blocks s.
Proof.
  induction m as [| m IH]; intros s Hp Hm Ht.
  - exists 0%nat. cbn [Nat.iter nat_rect]. repeat split; try assumption.
    unfold Qle in *. cbn [Qnum Qden Z.of_nat] in *. lia.
  - destruct (Qlt_le_dec 0 (timeLeft s)) as [Hpos | Hnone].
    + destruct (IH (tick K W s)) as [k Hk].
      * rewrite tick_counting by assumption. exact Hp.
      * rewrite tick_counting by assumption. exact Hm.
      * rewrite tick_counting by assumption. cbn [timeLeft setTimeLeft].
        unfold Qle, Qminus, Qplus, Qopp in *. cbn [Qnum Qden] in *. lia.
      * exists (S k). rewrite Nat.iter_succ_r.
        destruct Hk as [H1 [H2 [H3 H4]]]. repeat split; try assumption.
        rewrite H4, tick_counting by assumption. reflexivity.
    + exists 0%nat. cbn. auto.
Qed.

(** The same countdown, with the whole state: until no time is left the
    ticks change [timeLeft] and nothing else. *)
Lemma ticks_only_count_down (m : nat) :
  forall s,
    status s = playing -> mode s = time ->
    (timeLeft s <= Z.of_nat m # 10)%Q ->
    exists k t,
      Nat.iter k (tick K W) s = setTimeLeft t s /\ (t <= 0)%Q.
Proof.
  induction m as [| m IH]; intros s Hp Hm Ht.
  - exists 0%nat, (timeLeft s). cbn [Nat.iter nat_rect]. split.
    + symmetry. apply setTimeLeft_same.
    + unfold Qle in *. cbn [Qnum Qden Z.of_nat] in *. lia.
  - destruct (Qlt_le_dec 0 (timeLeft s)) as [Hpos | Hnone].
    + destruct (IH (tick K W s)) as [k [t [Hk Hle]]].
      * rewrite tick_counting by assumption. exact Hp.
      * rewrite tick_counting by assumption. exact Hm.
      * rewrite tick_counting by assumption. cbn [timeLeft setTimeLeft].
        unfold Qle, Qminus, Qplus, Qopp in *. cbn [Qnum Qden] in *. lia.
      * exists (S k), t. rewrite Nat.iter_succ_r, Hk.
        rewrite tick_counting by assumption. split; [reflexivity | exact Hle].
    + exists 0%nat, (timeLeft s). cbn [Nat.iter nat_rect]. split.
      * symmetry. apply setTimeLeft_same.
      * exact Hnone.
Qed.

(** C4, as the code has it. In time mode while playing, a tick that finds
    time left takes a tenth off [timeLeft] and changes nothing else; a
    tick that finds [timeLeft] at or below 0 adds a row to the current
    grid, moves to [gameover] if the new grid overflows, and sets
    [timeLeft] back to [TIME_LIMIT]. So, from 1.0 as from any time left,
    the ticks count down with the rest of the state untouched until one
    of them leaves [timeLeft] at or below 0, and it is the tick after that
    one that adds the row and resets the time. How many ticks the
    countdown takes is left open: it depends on the rounding of the
    subtraction, which [Q] does not have and the doubles of the code do. *)
Theorem tick_counts_down_then_adds_row :
  forall (s : GameState),
    status s = playing ->
    mode s = time ->
    ((0 < timeLeft s)%Q ->
       tick K W s = setTimeLeft (timeLeft s - (1 # 10))%Q s)
    /\ ((timeLeft s <= 0)%Q ->
          let withNewRow := fst (addNewRow K W (blocks s) (draws s)) in
          blocks (tick K W s) = withNewRow
          /\ status (tick K W s)
             = (if checkGameOver withNewRow (GRID_ROWS_MAX K) then gameover else playing)
          /\ timeLeft (tick K W s) = TIME_LIMIT K)
    /\ (exists k t,
          Nat.iter k (tick K W) s = setTimeLeft t s
          /\ (t <= 0)%Q
          /\ blocks (Nat.iter (S k) (tick K W) s)
             = fst (addNewRow K W (blocks s) (draws s))
          /\ status (Nat.iter (S k) (tick K W) s)
             = (if checkGameOver (fst (addNewRow K W (blocks s) (draws s)))
                     (GRID_ROWS_MAX K)
                then gameover else playing)
          /\ timeLeft (Nat.iter (S k) (tick K W) s) = TIME_LIMIT K).
Proof.
  intros s Hp Hm.
  assert (Hexpired : forall st,
             status st = playing -> mode st = time -> (timeLeft st <= 0)%Q ->
             blocks (tick K W st) = fst (addNewRow K W (blocks st) (draws st))
             /\ status (tick K W st)
                = (if checkGameOver (fst (addNewRow K W (blocks st) (draws st)))
                        (GRID_ROWS_MAX K)
                   then gameover else playing)
             /\ timeLeft (tick K W st) = TIME_LIMIT K).
  { intros st Hpst Hmst Ht. rewrite (tick_expired st Hpst Hmst Ht).
    destruct (checkGameOver _ _); cbn; auto. }
  split; [| split].
  - now apply tick_counting.
  - intros Ht withNewRow. subst withNewRow. now apply Hexpired.
  - destruct (ticks_only_count_down _ s Hp Hm (timeLeft_tenths (timeLeft s)))
      as [k [t [Hk Hle]]].
    exists k, t. split; [exact Hk | split; [exact Hle |]].
    rewrite Nat.iter_succ, Hk.
    apply (Hexpired (setTimeLeft t s)); assumption.
Qed.

(** ** The selection sum as a sum over the grid *)

Lemma valueOf_absent (bs : list Block) (i : string) :
  ~ In i (map id bs) -> valueOf bs i = 0.
Proof.
  intro H. unfold valueOf. rewrite find_none_of_no_match; [reflexivity |].
  intros b Hb E. apply H. rewrite <- E. now apply in_map.
Qed.

Lemma selectionSum_cons_block (selected : list string) (b : Block) (bs : list Block) :
  ~ In (id b) (map id bs) ->
  selectionSum selected (b :: bs)
  = Z.of_nat (count_occ string_dec selected (id b)) * value b
    + selectionSum selected bs.
Proof.
  intro Hfresh. unfold selectionSum.
  induction selected as [| i selected IH]; cbn [map sumZ fold_right count_occ].
  - reflexivity.
  - fold (sumZ (map (valueOf (b :: bs)) selected)).
    fold (sumZ (map (valueOf bs) selected)). rewrite IH.
    unfold valueOf at 1. cbn [find].
    destruct (string_dec i (id b)) as [E | N].
    + subst i. rewrite String.eqb_refl, (valueOf_absent bs (id b) Hfresh). lia.
    + destruct (String.eqb_spec (id b) i) as [E | _]; [congruence |].
      fold (valueOf bs i). lia.
Qed.

(** X6. When the selection repeats no id and the blocks have pairwise distinct
    ids, the selection sum is the sum of the values of the blocks of the
    grid whose ids are selected. *)
Theorem selectionSum_over_grid :
  forall (selected : list string) (bs : list Block),
    NoDup selected ->
    NoDup (map id bs) ->
    currentSum selected bs
    = sumZ (map value (filter (fun b => includes selected (id b)) bs)).
Proof.
  intros selected bs Hsel Hids. rewrite currentSum_selectionSum.
  induction bs as [| b bs IH].
  - unfold selectionSum. cbn [filter map sumZ fold_right].
    clear Hsel. induction selected as [| i selected IHs]; [reflexivity |].
    cbn [map sumZ fold_right]. fold (sumZ (map (valueOf []) selected)).
    now rewrite IHs.
  - inversion Hids as [| ? ? Hfresh Hids']; subst.
    rewrite selectionSum_cons_block, IH by assumption. cbn [filter].
    destruct (includes selected (id b)) eqn:E.
    + apply includes_In in E.
      rewrite (proj1 (NoDup_count_occ' string_dec selected) Hsel (id b) E).
      cbn [map sumZ fold_right]. fold (sumZ (map value
        (filter (fun b0 => includes selected (id b0)) bs))). lia.
    + apply includes_not_In in E.
      rewrite (proj1 (count_occ_not_In string_dec selected (id b)) E). lia.
Qed.

(** * Further properties of the generator *)

(** [Math.floor(x * (hi - lo + 1)) + lo] for [x] in the unit interval. *)
Lemma scaled_floor_in_range (x : Q) (lo hi : Z) :
  (0 <= x)%Q -> (x < 1)%Q -> lo <= hi ->
  lo <= Qfloor (x * inject_Z (hi - lo + 1)) + lo <= hi.
Proof.
  intros H0 H1 Hlh.
  set (n := hi - lo + 1).
  assert (Hn : (0 < inject_Z n)%Q).
  { change 0%Q with (inject_Z 0). rewrite <- Zlt_Qlt. unfold n. lia. }
  assert (Hlow : 0 <= Qfloor (x * inject_Z n)).
  { rewrite <- (Qfloor_Z 0). apply Qfloor_resp_le.
    apply Qmult_le_0_compat; [assumption | now apply Qlt_le_weak]. }
  assert (Hup : Qfloor (x * inject_Z n) < n).
  { rewrite Zlt_Qlt. apply Qle_lt_trans with (x * inject_Z n)%Q.
    - apply Qfloor_le.
    - rewrite <- (Qmult_1_l (inject_Z n)) at 2.
      now apply Qmult_lt_compat_r. }
  unfold n in *. lia.
Qed.

(** X2. With a random source in the unit interval and [MIN_VALUE <= MAX_VALUE],
    a created block has a value between [MIN_VALUE] and [MAX_VALUE], and
    sits at the row and column it was created for. *)
Theorem createBlock_value_in_range :
  forall (r c : Z) (n : nat),
    unitRandom W ->
    MIN_VALUE K <= MAX_VALUE K ->
    let b := fst (createBlock K W r c n) in
    MIN_VALUE K <= value b <= MAX_VALUE K
    /\ row b = r /\ col b = c /\ isRemoving b = None.
Proof.
  intros r c n Hrand Hle b. subst b. cbn.
  destruct (Hrand (S n)) as [H0 H1].
  split; [now apply scaled_floor_in_range | auto].
Qed.

(** X3. With a random source in the unit interval and
    [TARGET_SUM_MIN <= TARGET_SUM_MAX], a generated target lies between
    the two. *)
Theorem generateTargetSum_in_range :
  forall (n : nat),
    unitRandom W ->
    TARGET_SUM_MIN K <= TARGET_SUM_MAX K ->
    TARGET_SUM_MIN K <= fst (generateTargetSum K W n) <= TARGET_SUM_MAX K.
Proof.
  intros n Hrand Hle. cbn.
  destruct (Hrand n) as [H0 H1]. now apply scaled_floor_in_range.
Qed.

Lemma forEach_Forall {A : Type} (P : A -> Prop) (cs : list nat) (body : nat -> Rand A) :
  (forall c n, In c cs -> P (fst (body c n))) ->
  forall n, Forall P (fst (forEach cs body n)).
Proof.
  induction cs as [| c cs IH]; intros Hbody n.
  - constructor.
  - rewrite forEach_cons. cbn [fst]. constructor.
    + apply Hbody. now left.
    + apply IH. intros c' n' Hc'. apply Hbody. now right.
Qed.

Lemma rowCells (r : Z) (cs : list nat) :
  forall n,
    map cellOf (fst (forEach cs (fun c => createBlock K W r (Z.of_nat c)) n))
    = map (fun c => (r, Z.of_nat c)) cs.
Proof.
  induction cs as [| c cs IH]; intro n.
  - reflexivity.
  - rewrite forEach_cons. cbn [fst map]. now rewrite IH.
Qed.

Lemma generateInitialBlocks_fst (rows : nat) (n : nat) :
  fst (generateInitialBlocks K W rows n)
  = concat (fst (forEach (seq 0 rows) (fun r =>
              forEach (seq 0 (GRID_COLS K)) (fun c =>
                createBlock K W (Z.of_nat r) (Z.of_nat c))) n)).
Proof.
  unfold generateInitialBlocks, bind, ret.
  now destruct (forEach (seq 0 rows) _ n).
Qed.

Lemma gridRowsCells (cols : nat) (rs : list nat) :
  forall n,
    map cellOf (concat (fst (forEach rs (fun r =>
        forEach (seq 0 cols) (fun c =>
          createBlock K W (Z.of_nat r) (Z.of_nat c))) n)))
    = flat_map (fun r => map (fun c => (Z.of_nat r, Z.of_nat c)) (seq 0 cols)) rs.
Proof.
  induction rs as [| r rs IH]; intro n.
  - reflexivity.
  - rewrite forEach_cons. cbn [fst concat flat_map].
    now rewrite map_app, rowCells, IH.
Qed.

Lemma gridCells_length (rows cols : nat) :
  length (gridCells rows cols) = (rows * cols)%nat.
Proof.
  unfold gridCells. generalize 0%nat at 2 as first.
  induction rows as [| rows IH]; intro first; cbn [seq flat_map].
  - reflexivity.
  - rewrite length_app, length_map, length_seq, IH. lia.
Qed.

(** X4. The initial grid fills the rows 0 to [rows - 1] completely and in
    order, one block per cell: [rows * GRID_COLS] blocks in all, none when
    [rows] is 0. *)
Theorem generateInitialBlocks_fills_rows :
  forall (rows n : nat),
    let grid := fst (generateInitialBlocks K W rows n) in
    map cellOf grid = gridCells rows (GRID_COLS K)
    /\ length grid = (rows * GRID_COLS K)%nat
    /\ (rows = 0%nat -> grid = []).
Proof.
  intros rows n grid. subst grid.
  assert (Hcells : map cellOf (fst (generateInitialBlocks K W rows n))
                   = gridCells rows (GRID_COLS K)).
  { rewrite generateInitialBlocks_fst. apply gridRowsCells. }
  split; [exact Hcells | split].
  - rewrite <- (length_map cellOf), Hcells. apply gridCells_length.
  - intros ->. reflexivity.
Qed.

(** * Further properties of the grid *)

Lemma newRow_rows (n : nat) :
  Forall (fun b => row b = 0)
    (fst (forEach (seq 0 (GRID_COLS K)) (fun c => createBlock K W 0 (Z.of_nat c)) n)).
Proof. apply forEach_Forall. intros c n' _. reflexivity. Qed.

(** X5. Adding a row overflows the grid exactly when a block was already in
    the row below the limit or higher, or when the limit is so low that
    the new row 0 itself is over it; so an overflow never goes away by
    adding rows, and a block in row [maxRows - 1] overflows with the next
    row. *)
Theorem addNewRow_overflows :
  forall (bs : list Block) (n : nat) (maxRows : Z),
    let grown := fst (addNewRow K W bs n) in
    (checkGameOver grown maxRows = true <->
       (exists b, In b bs /\ row b >= maxRows - 1)
       \/ ((0 < GRID_COLS K)%nat /\ maxRows <= 0))
    /\ (checkGameOver bs maxRows = true -> checkGameOver grown maxRows = true)
    /\ (forall b, In b bs -> row b = maxRows - 1 -> checkGameOver grown maxRows = true).
Proof.
  intros bs n maxRows grown. subst grown.
  assert (Hiff : checkGameOver (fst (addNewRow K W bs n)) maxRows = true <->
                 (exists b, In b bs /\ row b >= maxRows - 1)
                 \/ ((0 < GRID_COLS K)%nat /\ maxRows <= 0)).
  { rewrite checkGameOver_spec, addNewRow_fst. split.
    - intros [b [Hb Hr]]. apply in_app_or in Hb. destruct Hb as [Hb | Hb].
      + apply in_map_iff in Hb. destruct Hb as [b0 [<- Hb0]].
        left. exists b0. split; [assumption | cbn in Hr; lia].
      + right. pose proof (newRow_rows n) as Hrows.
        rewrite Forall_forall in Hrows. rewrite (Hrows b Hb) in Hr.
        split; [| lia].
        destruct (GRID_COLS K); [destruct Hb | lia].
    - intros [[b [Hb Hr]] | [Hc Hm]].
      + exists (shiftUp b). split; [| cbn; lia].
        apply in_or_app. left. now apply in_map.
      + pose proof (newRow_nth 0 (GRID_COLS K) 0 n 0 Hc) as Hnth.
        apply nth_error_In in Hnth.
        eexists. split; [apply in_or_app; right; exact Hnth | cbn; lia]. }
  split; [exact Hiff | split].
  - intro H. apply Hiff. left. apply checkGameOver_spec in H.
    destruct H as [b [Hb Hr]]. exists b. split; [assumption | lia].
  - intros b Hb Hr. apply Hiff. left. exists b. split; [assumption | lia].
Qed.

(** * Further properties of the session *)

Lemma selectionEffect_selection (s : GameState) :
  selectedIds (selectionEffect K W s) = selectedIds s
  \/ selectedIds (selectionEffect K W s) = [].
Proof.
  unfold selectionEffect.
  destruct (length (selectedIds s) =? 0)%nat; [now left |].
  destruct (evaluate _ _ _); [| now left | now left].
  right. apply handleSuccess_selectedIds.
Qed.

Lemma step_selection_NoDup (o : Op) (s : GameState) :
  NoDup (selectedIds s) -> NoDup (selectedIds (step K W o s)).
Proof.
  intro H. destruct o; cbn [step];
    rewrite ?startGame_selectedIds, ?tick_selectedIds, ?refillEffect_selectedIds;
    try assumption; try constructor.
  - now apply handleBlockClick_NoDup.
  - destruct (selectionEffect_selection s) as [-> | ->]; [assumption | constructor].
  - unfold overshootTimeout. destruct (pendingClears s); [assumption | constructor].
Qed.

(** X7. No operation ever selects an id twice: from a selection without
    repeats, every sequence of operations leads to a selection without
    repeats. *)
Theorem selection_never_repeats_an_id :
  forall (s : GameState) (ops : list Op),
    NoDup (selectedIds s) ->
    NoDup (selectedIds (run K W ops s)).
Proof.
  intros s ops. revert s.
  induction ops as [| o ops IH]; intros s H; cbn.
  - assumption.
  - apply IH. now apply step_selection_NoDup.
Qed.

Lemma filter_absent (i : string) (ids : list string) :
  ~ In i ids -> filter (fun j => negb (String.eqb j i)) ids = ids.
Proof.
  intro H. rewrite filter_neq_remove. now apply notin_remove.
Qed.

Lemma setSelectedIds_same (s : GameState) : setSelectedIds (selectedIds s) s = s.
Proof. now destruct s. Qed.

(** X8. Clicking a block twice while playing: if the block was not selected,
    the two clicks cancel out and the state is the one before; if it was
    selected, it ends up selected again, but as the last of the selection. *)
Theorem handleBlockClick_twice :
  forall (i : string) (s : GameState),
    status s = playing ->
    let s2 := handleBlockClick i (handleBlockClick i s) in
    (~ In i (selectedIds s) -> s2 = s)
    /\ (In i (selectedIds s) ->
          selectedIds s2 = remove string_dec i (selectedIds s) ++ [i]).
Proof.
  intros i s Hp s2. subst s2.
  assert (Hclick : forall st, status st = playing ->
             handleBlockClick i st
             = setSelectedIds
                 (if includes (selectedIds st) i
                  then filter (fun j => negb (String.eqb j i)) (selectedIds st)
                  else selectedIds st ++ [i]) st).
  { intros st Hst. unfold handleBlockClick. now rewrite Hst. }
  rewrite (Hclick s Hp), Hclick by exact Hp.
  cbn [selectedIds setSelectedIds]. split.
  - intro Hout. pose proof Hout as Hout'. apply includes_not_In in Hout'.
    rewrite Hout'.
    assert (Hin : includes (selectedIds s ++ [i]) i = true).
    { apply includes_In, in_or_app. right. now left. }
    rewrite Hin, filter_app, filter_absent by assumption.
    cbn [filter]. rewrite String.eqb_refl. cbn [negb].
    rewrite app_nil_r. now destruct s.
  - intro Hin. pose proof Hin as Hin'. apply includes_In in Hin'.
    rewrite Hin', filter_neq_remove.
    assert (Hgone : includes (remove string_dec i (selectedIds s)) i = false).
    { apply includes_not_In, remove_In. }
    now rewrite Hgone.
Qed.

Lemma step_needs_playing (o : Op) (s : GameState) :
  needsPlaying o = true -> status s <> playing -> step K W o s = s.
Proof.
  intros Ho Hs.
  assert (E : statusIs (status s) playing = false).
  { destruct (statusIs (status s) playing) eqn:E; [| reflexivity].
    apply statusIs_playing in E. contradiction. }
  destruct o; try discriminate; cbn [step].
  - unfold handleBlockClick. now rewrite E.
  - unfold tick. now rewrite E.
  - unfold refillEffect. now rewrite E.
Qed.

Lemma run_needs_playing (ops : list Op) (s : GameState) :
  forallb needsPlaying ops = true -> status s <> playing -> run K W ops s = s.
Proof.
  induction ops as [| o ops IH]; intros Hops Hs.
  - reflexivity.
  - cbn in Hops. apply andb_prop in Hops. destruct Hops as [Ho Hops].
    cbn [run fold_left]. rewrite step_needs_playing by assumption.
    now apply IH.
Qed.

(** X9. Outside the status [playing] (idle, paused or game over) block
    clicks, timer ticks and refills change nothing, however many and in
    whatever order. *)
Theorem clicks_and_ticks_need_playing :
  forall (s : GameState) (ops : list Op),
    status s <> playing ->
    forallb needsPlaying ops = true ->
    run K W ops s = s.
Proof.
  intros s ops Hs Hops. now apply run_needs_playing.
Qed.

Lemma setStatus_same (s : GameState) : setStatus (status s) s = s.
Proof. now destruct s. Qed.

(** X10. A pause freezes the game: pausing while playing, then any clicks,
    ticks and refills, then pressing pause again or the resume button,
    gives back exactly the state that was paused, with the time left
    that it had. *)
Theorem pause_freezes_the_game :
  forall (s : GameState) (ops : list Op),
    status s = playing ->
    forallb needsPlaying ops = true ->
    run K W (TogglePause :: ops ++ [TogglePause]) s = s
    /\ run K W (TogglePause :: ops ++ [Resume]) s = s
    /\ status (step K W TogglePause s) = paused.
Proof.
  intros s ops Hp Hops.
  assert (Hpaused : step K W TogglePause s = setStatus paused s).
  { cbn [step]. unfold togglePause. now rewrite Hp. }
  assert (Hfrozen : run K W ops (setStatus paused s) = setStatus paused s).
  { apply run_needs_playing; [assumption | cbn; discriminate]. }
  repeat split.
  - cbn [run fold_left]. rewrite Hpaused.
    fold (run K W (ops ++ [TogglePause]) (setStatus paused s)).
    rewrite run_snoc, Hfrozen. destruct s. cbn in *. now subst.
  - cbn [run fold_left]. rewrite Hpaused.
    fold (run K W (ops ++ [Resume]) (setStatus paused s)).
    rewrite run_snoc, Hfrozen. destruct s. cbn in *. now subst.
  - now rewrite Hpaused.
Qed.

(** X11. A new game forgets the old one: [startGame] gives the same state
    whatever the grid, target, score, status, mode, time and selection
    were, so it does not matter whether the player went home first, and
    a retry is a reset followed by a start in the same mode. *)
Theorem startGame_forgets_the_old_game :
  forall (m : GameMode) (s : GameState),
    startGame K W m (resetGame s) = startGame K W m s
    /\ step K W Retry s = step K W (Start (mode s)) (step K W Reset s)
    /\ (forall s',
          highScore s' = highScore s -> isWrong s' = isWrong s ->
          draws s' = draws s -> pendingClears s' = pendingClears s ->
          startGame K W m s' = startGame K W m s).
Proof.
  intros m s.
  assert (Hsame : forall m' s',
             highScore s' = highScore s -> isWrong s' = isWrong s ->
             draws s' = draws s -> pendingClears s' = pendingClears s ->
             startGame K W m' s' = startGame K W m' s).
  { intros m' s' Hh Hw Hd Hc. unfold startGame. rewrite Hd.
    destruct (generateInitialBlocks K W _ _) as [bs n1].
    destruct (generateTargetSum K W n1) as [t n2].
    cbv [setDraws setSelectedIds setTimeLeft setMode setStatus setScore
         setTargetSum setBlocks blocks targetSum score highScore status mode
         timeLeft selectedIds isWrong draws pendingClears].
    destruct s, s'. cbn in *. now subst. }
  split; [| split].
  - now apply Hsame.
  - cbn [step]. symmetry. now apply Hsame.
  - apply Hsame.
Qed.

(** X12. A success is awarded once: after the check has signalled Success,
    checking again changes nothing, since the selection is empty. *)
Theorem success_is_awarded_once :
  forall (s : GameState),
    selectedIds s <> [] ->
    evaluate (selectedIds s) (blocks s) (targetSum s) = Success ->
    selectionEffect K W (selectionEffect K W s) = selectionEffect K W s
    /\ score (selectionEffect K W (selectionEffect K W s)) = score s + pointsOf s.
Proof.
  intros s Hne Hs. rewrite (selectionEffect_Success s Hne Hs).
  assert (Hagain : selectionEffect K W (handleSuccess K W s) = handleSuccess K W s).
  { unfold selectionEffect at 1. now rewrite handleSuccess_selectedIds. }
  rewrite Hagain. split; [reflexivity | apply handleSuccess_score].
Qed.

(** ** What each operation does to the grid *)

Lemma startGame_blocks (m : GameMode) (s : GameState) :
  blocks (startGame K W m s) = fst (generateInitialBlocks K W (INITIAL_ROWS K) (draws s)).
Proof.
  unfold startGame.
  destruct (generateInitialBlocks K W _ _) as [bs n1].
  destruct (generateTargetSum K W n1) as [t n2]. reflexivity.
Qed.

Lemma startGame_status (m : GameMode) (s : GameState) :
  status (startGame K W m s) = playing.
Proof.
  unfold startGame.
  destruct (generateInitialBlocks K W _ _) as [bs n1].
  destruct (generateTargetSum K W n1) as [t n2]. reflexivity.
Qed.

(** A tick either leaves grid and status alone, or adds a row, and then
    the status is [gameover] exactly when the new grid overflows. *)
Lemma tick_grid (s : GameState) :
  (blocks (tick K W s) = blocks s /\ status (tick K W s) = status s)
  \/ (blocks (tick K W s) = fst (addNewRow K W (blocks s) (draws s))
      /\ status (tick K W s)
         = if checkGameOver (fst (addNewRow K W (blocks s) (draws s))) (GRID_ROWS_MAX K)
           then gameover else status s).
Proof.
  unfold tick.
  destruct (statusIs (status s) playing && modeIs (mode s) time); [| now left].
  destruct (Qle_bool (timeLeft s) 0); [| now left].
  right. destruct (addNewRow K W (blocks s) (draws s)) as [bs n]. cbn [fst].
  destruct (checkGameOver bs (GRID_ROWS_MAX K)); split; reflexivity.
Qed.

(** The selection check either leaves grid and status alone, or removes
    the selected blocks; in classic mode it then adds a row, and the status
    is [gameover] exactly when the new grid overflows. *)
Lemma selectionEffect_grid (s : GameState) :
  (blocks (selectionEffect K W s) = blocks s
   /\ status (selectionEffect K W s) = status s)
  \/ (blocks (selectionEffect K W s) = remainingOf s
      /\ status (selectionEffect K W s) = status s)
  \/ (blocks (selectionEffect K W s) = fst (addNewRow K W (remainingOf s) (draws s))
      /\ status (selectionEffect K W s)
         = if checkGameOver (fst (addNewRow K W (remainingOf s) (draws s))) (GRID_ROWS_MAX K)
           then gameover else status s).
Proof.
  unfold selectionEffect.
  destruct (length (selectedIds s) =? 0)%nat; [now left |].
  destruct (evaluate _ _ _); [| now left | now left].
  rewrite handleSuccess_blocks, handleSuccess_status.
  destruct (mode s); [right; right | right; left]; split; reflexivity.
Qed.

Lemma refillEffect_grid (s : GameState) :
  refillEffect K W s = s
  \/ (blocks s = [] /\ status s = playing
      /\ blocks (refillEffect K W s)
         = fst (generateInitialBlocks K W (INITIAL_ROWS K) (draws s))
      /\ status (refillEffect K W s) = status s).
Proof.
  unfold refillEffect.
  destruct (statusIs (status s) playing) eqn:E; [| now left].
  destruct (blocks s) as [| b bs] eqn:Eb; [| now left].
  right. apply statusIs_playing in E. cbn [length Nat.eqb andb].
  destruct (generateInitialBlocks K W _ _) as [bs n]. cbn. auto.
Qed.

Lemma handleBlockClick_grid (i : string) (s : GameState) :
  blocks (handleBlockClick i s) = blocks s /\ status (handleBlockClick i s) = status s.
Proof.
  unfold handleBlockClick.
  destruct (negb (statusIs (status s) playing)); split; reflexivity.
Qed.

Lemma overshootTimeout_grid (s : GameState) :
  blocks (overshootTimeout s) = blocks s /\ status (overshootTimeout s) = status s.
Proof.
  unfold overshootTimeout. destruct (pendingClears s); split; reflexivity.
Qed.

(** A property of grids that the empty grid and every initial grid have,
    and that adding a row and removing blocks keep, holds of the grid after
    every operation. *)
Lemma step_grid_invariant (P : list Block -> Prop) :
  P [] ->
  (forall n, P (fst (generateInitialBlocks K W (INITIAL_ROWS K) n))) ->
  (forall bs n, P bs -> P (fst (addNewRow K W bs n))) ->
  (forall bs f, P bs -> P (filter f bs)) ->
  forall o s, P (blocks s) -> P (blocks (step K W o s)).
Proof.
  intros Hnil Hinit Hrow Hfilter o s H.
  destruct o; cbn [step]; rewrite ?startGame_blocks; auto.
  - now rewrite (proj1 (handleBlockClick_grid i s)).
  - destruct (selectionEffect_grid s) as [[-> _] | [[-> _] | [-> _]]];
      unfold remainingOf; auto.
  - now rewrite (proj1 (overshootTimeout_grid s)).
  - destruct (tick_grid s) as [[-> _] | [-> _]]; auto.
  - destruct (refillEffect_grid s) as [-> | [_ [_ [-> _]]]]; auto.
Qed.

Lemma reachable_grid_invariant (P : list Block -> Prop) :
  P [] ->
  (forall n, P (fst (generateInitialBlocks K W (INITIAL_ROWS K) n))) ->
  (forall bs n, P bs -> P (fst (addNewRow K W bs n))) ->
  (forall bs f, P bs -> P (filter f bs)) ->
  forall stored s, reachable K W stored s -> P (blocks s).
Proof.
  intros Hnil Hinit Hrow Hfilter stored s Hr.
  induction Hr as [| o s _ IH].
  - exact Hnil.
  - now apply step_grid_invariant.
Qed.

(** ** The grid stays well formed *)

Lemma NoDup_map_injective_on {A B : Type} (f : A -> B) (xs : list A) :
  (forall x y, In x xs -> In y xs -> f x = f y -> x = y) ->
  NoDup xs -> NoDup (map f xs).
Proof.
  induction xs as [| x xs IH]; intros Hinj Hnd; cbn.
  - constructor.
  - inversion Hnd as [| ? ? Hx Hxs]; subst. constructor.
    + intro Hin. apply in_map_iff in Hin. destruct Hin as [y [E Hy]].
      apply Hinj in E; [| now right | now left]. now subst.
    + apply IH; [| assumption].
      intros a b Ha Hb. apply Hinj; now right.
Qed.

Lemma NoDup_map_filter {A B : Type} (f : A -> B) (p : A -> bool) (xs : list A) :
  NoDup (map f xs) -> NoDup (map f (filter p xs)).
Proof.
  induction xs as [| x xs IH]; cbn; intro H.
  - constructor.
  - inversion H as [| ? ? Hx Hxs]; subst.
    destruct (p x); cbn; [constructor |]; auto.
    intro Hin. apply Hx. apply in_map_iff in Hin.
    destruct Hin as [y [E Hy]]. apply filter_In in Hy.
    apply in_map_iff. exists y. tauto.
Qed.

Lemma rowOfCells_NoDup (r : Z) (cols : nat) :
  NoDup (map (fun c => (r, Z.of_nat c)) (seq 0 cols)).
Proof.
  apply NoDup_map_injective_on; [| apply seq_NoDup].
  intros x y _ _ E. inversion E. lia.
Qed.

Lemma gridCells_from_In (cols rows first : nat) (x y : Z) :
  In (x, y)
     (flat_map (fun r => map (fun c => (Z.of_nat r, Z.of_nat c)) (seq 0 cols))
               (seq first rows))
  <-> exists r c, (first <= r < first + rows)%nat /\ (c < cols)%nat
                  /\ x = Z.of_nat r /\ y = Z.of_nat c.
Proof.
  rewrite in_flat_map. split.
  - intros [r [Hr Hc]]. apply in_seq in Hr. apply in_map_iff in Hc.
    destruct Hc as [c [E Hc]]. apply in_seq in Hc. inversion E.
    exists r, c. repeat split; lia.
  - intros [r [c [Hr [Hc [-> ->]]]]]. exists r. split.
    + apply in_seq. lia.
    + apply in_map_iff. exists c. split; [reflexivity | apply in_seq; lia].
Qed.

Lemma gridCells_from_NoDup (cols rows : nat) :
  forall first,
    NoDup (flat_map (fun r => map (fun c => (Z.of_nat r, Z.of_nat c)) (seq 0 cols))
                    (seq first rows)).
Proof.
  induction rows as [| rows IH]; intro first; cbn [seq flat_map].
  - constructor.
  - apply NoDup_app.
    + apply rowOfCells_NoDup.
    + apply IH.
    + intros [x y] Hrow Hrest.
      apply in_map_iff in Hrow. destruct Hrow as [c [E _]]. inversion E; subst.
      apply gridCells_from_In in Hrest.
      destruct Hrest as [r [c' [Hr [_ [Ex _]]]]]. lia.
Qed.

Lemma generateInitialBlocks_cells (rows n : nat) :
  map cellOf (fst (generateInitialBlocks K W rows n)) = gridCells rows (GRID_COLS K).
Proof. rewrite generateInitialBlocks_fst. apply gridRowsCells. Qed.

Lemma gridWellFormed_cells (bs : list Block) :
  gridWellFormed K bs <->
  Forall (fun c => 0 <= fst c /\ 0 <= snd c < Z.of_nat (GRID_COLS K)) (map cellOf bs)
  /\ NoDup (map cellOf bs).
Proof.
  unfold gridWellFormed. rewrite Forall_map. reflexivity.
Qed.

Lemma generateInitialBlocks_wellFormed (rows n : nat) :
  gridWellFormed K (fst (generateInitialBlocks K W rows n)).
Proof.
  apply gridWellFormed_cells. rewrite generateInitialBlocks_cells. split.
  - apply Forall_forall. intros [x y] Hin. apply gridCells_from_In in Hin.
    destruct Hin as [r [c [_ [Hc [-> ->]]]]]. cbn. lia.
  - apply gridCells_from_NoDup.
Qed.

Lemma addNewRow_cells (bs : list Block) (n : nat) :
  map cellOf (fst (addNewRow K W bs n))
  = map (fun c => (fst c + 1, snd c)) (map cellOf bs)
    ++ map (fun c => (0, Z.of_nat c)) (seq 0 (GRID_COLS K)).
Proof.
  rewrite addNewRow_fst, map_app, rowCells, !map_map. reflexivity.
Qed.

Lemma addNewRow_wellFormed (bs : list Block) (n : nat) :
  gridWellFormed K bs -> gridWellFormed K (fst (addNewRow K W bs n)).
Proof.
  intro H. apply gridWellFormed_cells in H. destruct H as [Hin Hnd].
  apply gridWellFormed_cells. rewrite addNewRow_cells. split.
  - apply Forall_app. split.
    + rewrite Forall_map. eapply Forall_impl; [| exact Hin].
      intros [x y]. cbn. lia.
    + rewrite Forall_map. apply Forall_forall. intros c Hc.
      apply in_seq in Hc. cbn. lia.
  - apply NoDup_app.
    + apply NoDup_map_injective_on; [| assumption].
      intros [x y] [x' y'] _ _ E. inversion E. f_equal. lia.
    + apply rowOfCells_NoDup.
    + intros [x y] Hold Hnew.
      apply in_map_iff in Hold. destruct Hold as [[x0 y0] [E Hc]].
      apply in_map_iff in Hnew. destruct Hnew as [c [E' _]].
      rewrite Forall_forall in Hin. apply Hin in Hc.
      inversion E. inversion E'. cbn in *. lia.
Qed.

Lemma filter_wellFormed (bs : list Block) (f : Block -> bool) :
  gridWellFormed K bs -> gridWellFormed K (filter f bs).
Proof.
  intros [Hin Hnd]. split.
  - apply Forall_forall. intros b Hb. apply filter_In in Hb.
    rewrite Forall_forall in Hin. now apply Hin.
  - now apply NoDup_map_filter.
Qed.

(** X15. In every state a session can reach the grid is well formed: every
    block is in one of the [GRID_COLS] columns at a row from 0 on, and no
    two blocks are in the same cell. *)
Theorem grid_stays_well_formed :
  forall (stored : option Z) (s : GameState),
    reachable K W stored s ->
    gridWellFormed K (blocks s).
Proof.
  intros stored s Hr.
  apply (reachable_grid_invariant (gridWellFormed K)) with (stored := stored);
    try assumption.
  - split; constructor.
  - apply generateInitialBlocks_wellFormed.
  - apply addNewRow_wellFormed.
  - apply filter_wellFormed.
Qed.

(** ** Generated numbers stay in range *)

Lemma newRow_values (r : Z) (cs : list nat) (n : nat) :
  unitRandom W -> MIN_VALUE K <= MAX_VALUE K ->
  Forall (fun b => MIN_VALUE K <= value b <= MAX_VALUE K)
    (fst (forEach cs (fun c => createBlock K W r (Z.of_nat c)) n)).
Proof.
  intros Hrand Hle. apply forEach_Forall. intros c n' _. cbn.
  destruct (Hrand (S n')). now apply scaled_floor_in_range.
Qed.

Lemma generateInitialBlocks_values (rows n : nat) :
  unitRandom W -> MIN_VALUE K <= MAX_VALUE K ->
  Forall (fun b => MIN_VALUE K <= value b <= MAX_VALUE K)
    (fst (generateInitialBlocks K W rows n)).
Proof.
  intros Hrand Hle. rewrite generateInitialBlocks_fst.
  apply Forall_concat. apply forEach_Forall. intros r n' _.
  now apply newRow_values.
Qed.

Lemma addNewRow_values (bs : list Block) (n : nat) :
  unitRandom W -> MIN_VALUE K <= MAX_VALUE K ->
  Forall (fun b => MIN_VALUE K <= value b <= MAX_VALUE K) bs ->
  Forall (fun b => MIN_VALUE K <= value b <= MAX_VALUE K) (fst (addNewRow K W bs n)).
Proof.
  intros Hrand Hle H. rewrite addNewRow_fst. apply Forall_app. split.
  - rewrite Forall_map. exact H.
  - now apply newRow_values.
Qed.

Lemma startGame_targetSum (m : GameMode) (s : GameState) :
  exists n, targetSum (startGame K W m s) = fst (generateTargetSum K W n).
Proof.
  unfold startGame.
  destruct (generateInitialBlocks K W _ _) as [bs n1].
  exists n1. destruct (generateTargetSum K W n1) as [t n2]. reflexivity.
Qed.

Lemma handleSuccess_targetSum (s : GameState) :
  exists n, targetSum (handleSuccess K W s) = fst (generateTargetSum K W n).
Proof.
  unfold handleSuccess. cbn [setScore blocks draws].
  destruct (mode s); cbn [modeIs].
  - destruct (addNewRow K W _ _) as [bs n]. exists n.
    destruct (checkGameOver bs _);
      cbn [draws setDraws setBlocks setSelectedIds setStatus setScore];
      destruct (generateTargetSum K W n) as [t n'];
      destruct (_ >? _); reflexivity.
  - exists (draws s). cbn [draws setDraws setBlocks setSelectedIds setStatus setScore].
    destruct (generateTargetSum K W (draws s)) as [t n'].
    destruct (_ >? _); reflexivity.
Qed.

Lemma step_targetSum (o : Op) (s : GameState) :
  targetSum (step K W o s) = targetSum s
  \/ exists n, targetSum (step K W o s) = fst (generateTargetSum K W n).
Proof.
  destruct o; cbn [step]; try (now left).
  - right. apply startGame_targetSum.
  - right. apply startGame_targetSum.
  - left. unfold handleBlockClick. now destruct (negb _).
  - unfold selectionEffect.
    destruct (length (selectedIds s) =? 0)%nat; [now left |].
    destruct (evaluate _ _ _); [| now left | now left].
    right. apply handleSuccess_targetSum.
  - left. unfold overshootTimeout. now destruct (pendingClears s).
  - left. unfold tick.
    destruct (statusIs (status s) playing && modeIs (mode s) time); [| reflexivity].
    destruct (Qle_bool (timeLeft s) 0); [| reflexivity].
    destruct (addNewRow K W (blocks s) (draws s)) as [bs n].
    destruct (checkGameOver bs (GRID_ROWS_MAX K)); reflexivity.
  - left. unfold refillEffect.
    destruct (statusIs (status s) playing && (length (blocks s) =? 0)%nat); [| reflexivity].
    now destruct (generateInitialBlocks K W _ _).
Qed.

(** X16. With a random source in the unit interval and well-ordered bounds,
    every block of every reachable grid has a value between [MIN_VALUE]
    and [MAX_VALUE], and the target is between [TARGET_SUM_MIN] and
    [TARGET_SUM_MAX] once a game has set one (it is 0 before). *)
Theorem generated_numbers_stay_in_range :
  forall (stored : option Z) (s : GameState),
    unitRandom W ->
    MIN_VALUE K <= MAX_VALUE K ->
    TARGET_SUM_MIN K <= TARGET_SUM_MAX K ->
    reachable K W stored s ->
    Forall (fun b => MIN_VALUE K <= value b <= MAX_VALUE K) (blocks s)
    /\ (targetSum s = 0 \/ TARGET_SUM_MIN K <= targetSum s <= TARGET_SUM_MAX K).
Proof.
  intros stored s Hrand Hv Ht Hr. split.
  - apply (reachable_grid_invariant
             (Forall (fun b => MIN_VALUE K <= value b <= MAX_VALUE K)))
      with (stored := stored); try assumption.
    + constructor.
    + intro n. now apply generateInitialBlocks_values.
    + intros bs n. now apply addNewRow_values.
    + intros bs f H. apply Forall_forall. intros b Hb. apply filter_In in Hb.
      rewrite Forall_forall in H. now apply H.
  - induction Hr as [| o s _ IH].
    + now left.
    + destruct (step_targetSum o s) as [-> | [n ->]]; [exact IH |].
      right. cbn. destruct (Hrand n). now apply scaled_floor_in_range.
Qed.

(** ** Time and score *)

Lemma startGame_timeLeft (m : GameMode) (s : GameState) :
  timeLeft (startGame K W m s) = TIME_LIMIT K.
Proof.
  unfold startGame.
  destruct (generateInitialBlocks K W _ _) as [bs n1].
  destruct (generateTargetSum K W n1) as [t n2]. reflexivity.
Qed.

Lemma startGame_score (m : GameMode) (s : GameState) :
  score (startGame K W m s) = 0.
Proof.
  unfold startGame.
  destruct (generateInitialBlocks K W _ _) as [bs n1].
  destruct (generateTargetSum K W n1) as [t n2]. reflexivity.
Qed.

Lemma tick_timeLeft (s : GameState) :
  timeLeft (tick K W s) = timeLeft s
  \/ timeLeft (tick K W s) = TIME_LIMIT K
  \/ ((0 < timeLeft s)%Q /\ timeLeft (tick K W s) = (timeLeft s - (1 # 10))%Q).
Proof.
  unfold tick.
  destruct (statusIs (status s) playing && modeIs (mode s) time); [| now left].
  destruct (Qle_bool (timeLeft s) 0) eqn:E.
  - right. left. destruct (addNewRow K W (blocks s) (draws s)) as [bs n].
    destruct (checkGameOver bs (GRID_ROWS_MAX K)); reflexivity.
  - right. right. apply Qle_bool_false in E. now split.
Qed.

Lemma tick_score (s : GameState) : score (tick K W s) = score s.
Proof.
  unfold tick.
  destruct (statusIs (status s) playing && modeIs (mode s) time); [| reflexivity].
  destruct (Qle_bool (timeLeft s) 0); [| reflexivity].
  destruct (addNewRow K W (blocks s) (draws s)) as [bs n].
  destruct (checkGameOver bs (GRID_ROWS_MAX K)); reflexivity.
Qed.

Lemma refillEffect_rest (s : GameState) :
  timeLeft (refillEffect K W s) = timeLeft s /\ score (refillEffect K W s) = score s.
Proof.
  unfold refillEffect.
  destruct (statusIs (status s) playing && (length (blocks s) =? 0)%nat); [| now split].
  destruct (generateInitialBlocks K W _ _). now split.
Qed.

Lemma handleBlockClick_rest (i : string) (s : GameState) :
  timeLeft (handleBlockClick i s) = timeLeft s
  /\ score (handleBlockClick i s) = score s.
Proof. unfold handleBlockClick. destruct (negb _); now split. Qed.

Lemma overshootTimeout_rest (s : GameState) :
  timeLeft (overshootTimeout s) = timeLeft s /\ score (overshootTimeout s) = score s.
Proof. unfold overshootTimeout. destruct (pendingClears s); now split. Qed.

Lemma step_timeLeft (o : Op) (s : GameState) :
  timeLeft (step K W o s) = timeLeft s
  \/ timeLeft (step K W o s) = TIME_LIMIT K
  \/ ((0 < timeLeft s)%Q /\ timeLeft (step K W o s) = (timeLeft s - (1 # 10))%Q).
Proof.
  destruct o; cbn [step]; try (now left).
  - right. left. apply startGame_timeLeft.
  - right. left. apply startGame_timeLeft.
  - left. apply handleBlockClick_rest.
  - unfold selectionEffect.
    destruct (length (selectedIds s) =? 0)%nat; [now left |].
    destruct (evaluate _ _ _); [| now left | now left].
    rewrite handleSuccess_timeLeft. destruct (mode s); auto.
  - left. apply overshootTimeout_rest.
  - apply tick_timeLeft.
  - left. apply refillEffect_rest.
Qed.

Lemma step_timeInBounds (o : Op) (s : GameState) :
  (0 <= TIME_LIMIT K)%Q -> timeInBounds K s -> timeInBounds K (step K W o s).
Proof.
  intros Hlimit [Hlow Hup]. unfold timeInBounds.
  destruct (step_timeLeft o s) as [-> | [-> | [Hpos ->]]].
  - now split.
  - split; [| apply Qle_refl].
    apply Qlt_le_trans with 0%Q; [reflexivity | assumption].
  - split.
    + apply Qlt_minus_iff. apply Qlt_minus_iff in Hpos.
      setoid_replace (timeLeft s - (1 # 10) + - - (1 # 10))%Q
        with (timeLeft s + - 0)%Q by ring.
      exact Hpos.
    + apply Qle_trans with (timeLeft s); [| assumption].
      apply Qle_minus_iff.
      setoid_replace (timeLeft s + - (timeLeft s - (1 # 10)))%Q with (1 # 10)%Q by ring.
      discriminate.
Qed.

Lemma reachable_timeInBounds (stored : option Z) (s : GameState) :
  (0 <= TIME_LIMIT K)%Q -> reachable K W stored s -> timeInBounds K s.
Proof.
  intros Hlimit Hr. induction Hr as [| o s _ IH].
  - split; [| apply Qle_refl].
    apply Qlt_le_trans with 0%Q; [reflexivity | assumption].
  - now apply step_timeInBounds.
Qed.

(** X17. With [TIME_LIMIT] not negative, the time left never exceeds
    [TIME_LIMIT] and never falls to a tenth of a second below zero or
    further, in any reachable state; it does fall below 0 when
    [TIME_LIMIT] is not a multiple of a tenth, as at the third tick from
    a quarter of a second. *)
Theorem timeLeft_stays_in_bounds :
  forall (stored : option Z) (s : GameState),
    (0 <= TIME_LIMIT K)%Q ->
    reachable K W stored s ->
    (- (1 # 10) < timeLeft s)%Q /\ (timeLeft s <= TIME_LIMIT K)%Q.
Proof.
  intros stored s Hlimit Hr. now apply (reachable_timeInBounds stored).
Qed.

Lemma pointsOf_nonneg (s : GameState) :
  timeInBounds K s -> selectedIds s <> [] -> 9 <= pointsOf s.
Proof.
  intros [Hlow _] Hne. unfold pointsOf.
  assert (Hlen : 1 <= Z.of_nat (length (selectedIds s))).
  { destruct (selectedIds s); [contradiction | cbn [length]; lia]. }
  destruct (mode s); [lia |].
  assert (Hfloor : -1 <= Qfloor (timeLeft s)).
  { rewrite <- (Qfloor_Z (-1)). apply Qfloor_resp_le.
    apply Qlt_le_weak. apply Qle_lt_trans with (- (1 # 10))%Q; [discriminate | assumption]. }
  lia.
Qed.

Lemma step_score (o : Op) (s : GameState) :
  score (step K W o s) = score s
  \/ (startsGame o = true /\ score (step K W o s) = 0)
  \/ (selectedIds s <> [] /\ score (step K W o s) = score s + pointsOf s
      /\ highScoreValue (step K W o s) = Z.max (highScoreValue s) (score s + pointsOf s)).
Proof.
  destruct o; cbn [step]; try (now left).
  - right. left. split; [reflexivity | apply startGame_score].
  - right. left. split; [reflexivity | apply startGame_score].
  - left. apply handleBlockClick_rest.
  - unfold selectionEffect.
    destruct (selectedIds s) as [| i sel] eqn:E; [now left |]. cbn [length Nat.eqb].
    rewrite <- E.
    destruct (evaluate _ _ _); [| now left | now left].
    right. right. split; [rewrite E; discriminate |].
    split; [apply handleSuccess_score |].
    unfold highScoreValue. rewrite handleSuccess_highScore.
    destruct (score s + pointsOf s >? orZero (highScore s)) eqn:G.
    + apply Z.gtb_gt in G. rewrite orZero_Some. lia.
    + assert (~ score s + pointsOf s > orZero (highScore s))
        by (intro H; apply Z.gtb_gt in H; congruence).
      lia.
  - left. apply overshootTimeout_rest.
  - left. apply tick_score.
  - left. apply refillEffect_rest.
Qed.

(** X18. With [TIME_LIMIT] and the stored high score not negative, in every
    reachable state the score is at least 0 and at most the high score,
    and only the start of a new game lowers it: every other operation
    leaves it or, on a success, raises it by 9 points or more. *)
Theorem score_stays_below_high_score :
  forall (stored : option Z) (s : GameState),
    (0 <= TIME_LIMIT K)%Q ->
    0 <= orZero stored ->
    reachable K W stored s ->
    0 <= score s <= highScoreValue s
    /\ (forall o, startsGame o = false ->
          score (step K W o s) = score s \/ score s + 9 <= score (step K W o s)).
Proof.
  intros stored s Hlimit Hstored Hr.
  assert (Hinv : 0 <= score s <= highScoreValue s).
  { induction Hr as [| o s Hr IH].
    - change (0 <= 0 <= orZero stored). lia.
    - pose proof (step_highScoreValue o s) as Hmono.
      pose proof (reachable_timeInBounds stored s Hlimit Hr) as Htime.
      destruct (step_score o s) as [-> | [[_ ->] | [Hne [-> ->]]]]; try lia.
      pose proof (pointsOf_nonneg s Htime Hne). lia. }
  split; [exact Hinv |].
  intros o Ho.
  pose proof (reachable_timeInBounds stored s Hlimit Hr) as Htime.
  destruct (step_score o s) as [-> | [[Hs _] | [Hne [-> _]]]].
  - now left.
  - congruence.
  - right. pose proof (pointsOf_nonneg s Htime Hne). lia.
Qed.

(** ** Sessions driven through the page *)

Lemma session_reachable (stored : option Z) (s : GameState) :
  session K W stored s -> reachable K W stored s.
Proof.
  induction 1 as [| o s _ IH _]; [constructor | now constructor].
Qed.

Lemma selectionEffect_frame (s : GameState) :
  selectedIds (selectionEffect K W s) = []
  \/ (selectedIds (selectionEffect K W s) = selectedIds s
      /\ blocks (selectionEffect K W s) = blocks s).
Proof.
  unfold selectionEffect.
  destruct (length (selectedIds s) =? 0)%nat; [now right |].
  destruct (evaluate _ _ _); [| now right | now right].
  left. apply handleSuccess_selectedIds.
Qed.

Lemma addNewRow_keeps_ids (bs : list Block) (n : nat) (i : string) :
  In i (map id bs) -> In i (map id (fst (addNewRow K W bs n))).
Proof.
  intro H. rewrite addNewRow_fst, map_app, map_map. apply in_or_app. left.
  exact H.
Qed.

Lemma handleBlockClick_selection (i : string) (s : GameState) (j : string) :
  In j (selectedIds (handleBlockClick i s)) -> j = i \/ In j (selectedIds s).
Proof.
  unfold handleBlockClick.
  destruct (negb (statusIs (status s) playing)); [now right |].
  destruct (includes (selectedIds s) i); cbn [selectedIds setSelectedIds]; intro H.
  - apply filter_In in H. now right.
  - apply in_app_or in H. destruct H as [H | [H | []]]; auto.
Qed.

(** X19. In a session driven through the page every selected id is the id of a
    block of the grid: the selection check never meets an id without a
    block. *)
Theorem selection_stays_on_the_grid :
  forall (stored : option Z) (s : GameState),
    session K W stored s ->
    (forall i, In i (selectedIds s) -> exists b, In b (blocks s) /\ id b = i)
    /\ length (matchingBlocks (selectedIds s) (blocks s)) = length (selectedIds s).
Proof.
  intros stored s Hs.
  assert (Hincl : forall i, In i (selectedIds s) -> In i (map id (blocks s))).
  { induction Hs as [| o s Hs IH Ho].
    - intros i [].
    - destruct o; cbn [step]; cbn [offered] in Ho.
      + rewrite startGame_selectedIds. intros i [].
      + rewrite startGame_selectedIds. intros i [].
      + intros i [].
      + intros j Hj. rewrite (proj1 (handleBlockClick_grid i s)).
        apply handleBlockClick_selection in Hj. destruct Hj as [-> | Hj]; auto.
      + destruct (selectionEffect_frame s) as [-> | [-> ->]]; [intros i [] | exact IH].
      + rewrite (proj1 (overshootTimeout_grid s)). unfold overshootTimeout.
        destruct (pendingClears s); [exact IH | intros i []].
      + rewrite tick_selectedIds. intros i Hi. apply IH in Hi.
        destruct (tick_grid s) as [[-> _] | [-> _]];
          [assumption | now apply addNewRow_keeps_ids].
      + exact IH.
      + exact IH.
      + intros i [].
      + destruct (refillEffect_grid s) as [-> | [Hempty _]]; [exact IH |].
        rewrite refillEffect_selectedIds. intros i Hi. apply IH in Hi.
        rewrite Hempty in Hi. destruct Hi. }
  split.
  - intros i Hi. apply Hincl, in_map_iff in Hi. destruct Hi as [b [E Hb]]. eauto.
  - unfold matchingBlocks. induction (selectedIds s) as [| i sel IHsel].
    + reflexivity.
    + cbn [flat_map]. rewrite length_app, IHsel by (intros j Hj; apply Hincl; now right).
      assert (Hi : In i (map id (blocks s))) by (apply Hincl; now left).
      destruct (find (fun b => String.eqb (id b) i) (blocks s)) eqn:E; [reflexivity |].
      apply in_map_iff in Hi. destruct Hi as [b [Eb Hb]].
      apply (find_none _ _ E) in Hb. rewrite Eb, String.eqb_refl in Hb. discriminate.
Qed.

Lemma generateInitialBlocks_fits (rows n : nat) (maxRows : Z) :
  Z.of_nat rows <= maxRows ->
  checkGameOver (fst (generateInitialBlocks K W rows n)) maxRows = false.
Proof.
  intro Hfit. destruct (checkGameOver _ _) eqn:E; [| reflexivity].
  apply checkGameOver_spec in E. destruct E as [b [Hb Hr]].
  apply (in_map cellOf) in Hb. rewrite generateInitialBlocks_cells in Hb.
  unfold cellOf in Hb. apply gridCells_from_In in Hb.
  destruct Hb as [r [c [Hrange [_ [Er _]]]]]. lia.
Qed.

Lemma filter_fits (bs : list Block) (f : Block -> bool) (maxRows : Z) :
  checkGameOver bs maxRows = false -> checkGameOver (filter f bs) maxRows = false.
Proof.
  intro H. destruct (checkGameOver (filter f bs) maxRows) eqn:E; [| reflexivity].
  apply checkGameOver_spec in E. destruct E as [b [Hb Hr]].
  apply filter_In in Hb.
  assert (checkGameOver bs maxRows = true) by (apply checkGameOver_spec; exists b; tauto).
  congruence.
Qed.

Lemma onGameScreen_gameover (s : GameState) :
  status s = gameover -> onGameScreen s = false.
Proof. intro H. unfold onGameScreen. now rewrite H. Qed.

(** X20. With an initial grid that fits under the limit, in a session driven
    through the page no block is at row [GRID_ROWS_MAX] or above while the
    game screen is shown (status playing or paused): an overflow always
    comes with the status [gameover]. *)
Theorem overflow_ends_the_game :
  forall (stored : option Z) (s : GameState),
    Z.of_nat (INITIAL_ROWS K) <= GRID_ROWS_MAX K ->
    session K W stored s ->
    onGameScreen s = true ->
    forall b, In b (blocks s) -> 0 <= row b < GRID_ROWS_MAX K.
Proof.
  intros stored s Hfit Hs Hscreen b Hb.
  pose proof (reachable_grid_invariant (gridWellFormed K)
                (conj (Forall_nil _) (NoDup_nil _))
                (generateInitialBlocks_wellFormed (INITIAL_ROWS K))
                addNewRow_wellFormed filter_wellFormed
                stored s (session_reachable stored s Hs)) as [Hwf _].
  rewrite Forall_forall in Hwf. split; [now apply Hwf |].
  assert (Hno : checkGameOver (blocks s) (GRID_ROWS_MAX K) = false).
  { clear b Hb Hwf. induction Hs as [| o s Hs IH Ho].
    - reflexivity.
    - destruct o; cbn [step] in *; cbn [offered] in Ho.
      + rewrite startGame_blocks. now apply generateInitialBlocks_fits.
      + rewrite startGame_blocks. now apply generateInitialBlocks_fits.
      + discriminate.
      + destruct (handleBlockClick_grid i s) as [Eb Es]. rewrite Eb.
        apply IH. unfold onGameScreen in *. now rewrite <- Es.
      + destruct (selectionEffect_grid s) as [[Eb Es] | [[Eb Es] | [Eb Es]]];
          rewrite Eb; unfold onGameScreen in Hscreen; rewrite Es in Hscreen.
        * now apply IH.
        * apply filter_fits. now apply IH.
        * destruct (checkGameOver (fst (addNewRow K W (remainingOf s) (draws s))) _);
            [discriminate | reflexivity].
      + destruct (overshootTimeout_grid s) as [Eb Es]. rewrite Eb.
        apply IH. unfold onGameScreen in *. now rewrite <- Es.
      + destruct (tick_grid s) as [[Eb Es] | [Eb Es]];
          rewrite Eb; unfold onGameScreen in Hscreen; rewrite Es in Hscreen.
        * now apply IH.
        * destruct (checkGameOver (fst (addNewRow K W (blocks s) (draws s))) _);
            [discriminate | reflexivity].
      + now apply IH.
      + apply IH. unfold onGameScreen. now rewrite Ho.
      + now apply IH.
      + destruct (refillEffect_grid s) as [E | [_ [_ [Eb Es]]]].
        * rewrite E in *. now apply IH.
        * rewrite Eb. now apply generateInitialBlocks_fits. }
  destruct (Z_lt_ge_dec (row b) (GRID_ROWS_MAX K)) as [Hlt | Hge]; [assumption |].
  assert (checkGameOver (blocks s) (GRID_ROWS_MAX K) = true)
    by (apply checkGameOver_spec; exists b; split; [assumption | lia]).
  congruence.
Qed.

(** ** Time mode ends *)

Lemma addNewRow_lifts (bs : list Block) (n : nat) (b : Block) :
  In b bs -> In (shiftUp b) (fst (addNewRow K W bs n)).
Proof.
  intro H. rewrite addNewRow_fst. apply in_or_app. left. now apply in_map.
Qed.

(** From a grid whose highest block is [d + 1] rows under the limit or
    closer, the timer alone ends the game. *)
Lemma ticks_end_the_game (d : nat) :
  forall s,
    status s = playing -> mode s = time ->
    (exists b, In b (blocks s) /\ GRID_ROWS_MAX K - 1 - Z.of_nat d <= row b) ->
    exists n, status (Nat.iter n (tick K W) s) = gameover.
Proof.
  induction d as [| d IH]; intros s Hp Hm [b [Hb Hrow]];
    destruct (ticks_reach_zero _ s Hp Hm (timeLeft_tenths (timeLeft s)))
      as [k [Hp1 [Hm1 [Ht1 Hb1]]]];
    destruct (tick_expired_grid _ Hp1 Hm1 Ht1) as [Hb2 [Hm2 Hs2]];
    rewrite Hb1 in Hb2;
    pose proof (addNewRow_lifts (blocks s) (draws (Nat.iter k (tick K W) s)) b Hb) as Hup;
    rewrite Hb1 in Hs2;
    destruct (checkGameOver _ _) eqn:Hover.
  - exists (S k). now rewrite Nat.iter_succ.
  - exfalso.
    assert (checkGameOver
              (fst (addNewRow K W (blocks s) (draws (Nat.iter k (tick K W) s))))
              (GRID_ROWS_MAX K) = true).
    { apply checkGameOver_spec. exists (shiftUp b). split; [assumption | cbn; lia]. }
    congruence.
  - exists (S k). now rewrite Nat.iter_succ.
  - destruct (IH (tick K W (Nat.iter k (tick K W) s))) as [n Hn];
      [assumption | assumption | |].
    + exists (shiftUp b). rewrite Hb2. split; [assumption | cbn; lia].
    + exists (n + S k)%nat. now rewrite Nat.iter_add, Nat.iter_succ.
Qed.

(** X21. With at least one column, time mode always ends: from any state that
    is playing in time mode, ticks alone, with no success in between,
    lead to [gameover] after finitely many of them. *)
Theorem time_mode_ends_without_success :
  forall (s : GameState),
    (0 < GRID_COLS K)%nat ->
    status s = playing ->
    mode s = time ->
    exists n, status (Nat.iter n (tick K W) s) = gameover.
Proof.
  intros s Hcols Hp Hm.
  destruct (ticks_reach_zero _ s Hp Hm (timeLeft_tenths (timeLeft s)))
    as [k [Hp1 [Hm1 [Ht1 Hb1]]]].
  destruct (tick_expired_grid _ Hp1 Hm1 Ht1) as [Hb2 [Hm2 Hs2]].
  destruct (checkGameOver _ _) eqn:Hover.
  - exists (S k). now rewrite Nat.iter_succ.
  - set (s2 := tick K W (Nat.iter k (tick K W) s)) in *.
    pose proof (newRow_nth 0 (GRID_COLS K) 0
                  (draws (Nat.iter k (tick K W) s)) 0 Hcols) as Hnth.
    apply nth_error_In in Hnth.
    destruct (ticks_end_the_game (Z.to_nat (GRID_ROWS_MAX K)) s2 Hs2 Hm2) as [n Hn].
    + eexists. split.
      * rewrite Hb2, addNewRow_fst. apply in_or_app. right. exact Hnth.
      * cbn [row createBlock bind ret generateId mathRandom fst]. lia.
    + exists (n + S k)%nat. now rewrite Nat.iter_add, Nat.iter_succ.
Qed.

(** ** Overshoot and refill *)

(** X13. An overshoot costs nothing: once its timeout has fired, the state is
    the one before the check, with the selection cleared and the wrong
    flag down; score, high score, grid, target and time are untouched. *)
Theorem overshoot_only_clears_the_selection :
  forall (s : GameState),
    selectedIds s <> [] ->
    evaluate (selectedIds s) (blocks s) (targetSum s) = Overshoot ->
    overshootTimeout (selectionEffect K W s) = clearSelection (setIsWrong false s).
Proof.
  intros s Hne Ho. rewrite selectionEffect_nonempty, Ho by assumption.
  now destruct s.
Qed.

(** X14. With a non-empty initial grid, the refill leaves no empty grid while
    playing, and refilling twice is refilling once: an emptied grid is
    replaced by a full initial grid, any other state is left as it is. *)
Theorem refillEffect_restores_the_grid :
  forall (s : GameState),
    (0 < INITIAL_ROWS K * GRID_COLS K)%nat ->
    (status s = playing -> blocks (refillEffect K W s) <> [])
    /\ (status s = playing -> blocks s = [] ->
          map cellOf (blocks (refillEffect K W s))
          = gridCells (INITIAL_ROWS K) (GRID_COLS K))
    /\ (blocks s <> [] -> refillEffect K W s = s)
    /\ (status s <> playing -> refillEffect K W s = s)
    /\ refillEffect K W (refillEffect K W s) = refillEffect K W s.
Proof.
  intros s Hsize.
  assert (Hfull : forall n,
             fst (generateInitialBlocks K W (INITIAL_ROWS K) n) <> []).
  { intros n E. apply (f_equal (@length Block)) in E.
    rewrite <- (length_map cellOf), generateInitialBlocks_cells, gridCells_length in E.
    cbn in E. lia. }
  assert (Hkeep : forall st, blocks st <> [] -> refillEffect K W st = st).
  { intros st Hst. unfold refillEffect.
    destruct (blocks st); [contradiction |].
    cbn [length Nat.eqb]. now rewrite andb_false_r. }
  assert (Hidle : forall st, status st <> playing -> refillEffect K W st = st).
  { intros st Hst. now apply (step_needs_playing Refill). }
  assert (Hnonempty : status s = playing -> blocks (refillEffect K W s) <> []).
  { intro Hp. destruct (refillEffect_grid s) as [E | [_ [_ [E _]]]].
    - destruct (blocks s) eqn:Eb.
      + exfalso. unfold refillEffect in E. rewrite Hp, Eb in E.
        cbn [statusIs length Nat.eqb andb] in E.
        destruct (generateInitialBlocks K W _ _) as [bs n] eqn:G.
        apply (f_equal blocks) in E. cbn in E. rewrite Eb in E.
        apply (Hfull (draws s)). now rewrite G.
      + rewrite E, Eb. discriminate.
    - rewrite E. apply Hfull. }
  split; [exact Hnonempty | split; [| split; [apply Hkeep | split; [apply Hidle |]]]].
  - intros Hp Hempty. destruct (refillEffect_grid s) as [E | [_ [_ [E _]]]].
    + exfalso. apply (Hnonempty Hp). now rewrite E.
    + rewrite E. apply generateInitialBlocks_cells.
  - destruct (statusIs (status s) playing) eqn:E.
    + apply statusIs_playing in E. apply Hkeep. now apply Hnonempty.
    + assert (Hn : status s <> playing).
      { intro Hp. apply statusIs_playing in Hp. congruence. }
      now rewrite (Hidle s Hn), (Hidle s Hn).
Qed.

End Properties.

(** * Concrete runs *)

Lemma sampleClassic_reachable :
  reachable sampleConstants sampleRuntime None sampleClassic.
Proof. apply reachable_run. Qed.

Lemma sampleTimed_reachable :
  reachable sampleConstants sampleRuntime None sampleTimed.
Proof. apply reachable_run. Qed.

Lemma sample_selection_once (s : GameState) :
  selectedIds s = ["60"; "40"]%string ->
  map id (blocks s) = map id (blocks sampleClassic) ->
  forall i, In i (selectedIds s) ->
            count_occ string_dec (map id (blocks s)) i = 1%nat.
Proof.
  intros Hsel Hids i Hi. rewrite Hids. rewrite Hsel in Hi.
  destruct Hi as [<- | [<- | []]]; vm_compute; reflexivity.
Qed.

(** The selection check on the sample selection: 9 + 7 is the target 16. *)
Lemma selection_check_signals_witness :
  selectedIds sampleClassic <> []
  /\ evaluate (selectedIds sampleClassic) (blocks sampleClassic)
       (targetSum sampleClassic) = Success
  /\ selectionSum (selectedIds sampleClassic) (blocks sampleClassic) = 16.
Proof.
  assert (Hne : selectedIds sampleClassic <> []) by (vm_compute; discriminate).
  assert (Hs : evaluate (selectedIds sampleClassic) (blocks sampleClassic)
                 (targetSum sampleClassic) = Success) by (vm_compute; reflexivity).
  destruct (selection_check_signals sampleConstants sampleRuntime sampleClassic Hne)
    as [Hiff _].
  split; [exact Hne | split; [exact Hs |]].
  apply Hiff in Hs. exact Hs.
Defined.

(** The classic sample: 24 blocks, 2 selected, 6 columns. *)
Lemma classic_success_grid_size_witness :
  Z.of_nat (length (blocks (selectionEffect sampleConstants sampleRuntime sampleClassic)))
  = 24 - 2 + 6.
Proof.
  apply (classic_success_grid_size sampleConstants sampleRuntime None sampleClassic).
  - exact sampleClassic_reachable.
  - vm_compute. reflexivity.
  - vm_compute. discriminate.
  - vm_compute. reflexivity.
  - apply sample_selection_once; vm_compute; reflexivity.
Defined.


(** The timed sample scores 2 * 10 + 10 points, a new high score. *)
Lemma success_scores_and_high_score_witness :
  score (selectionEffect sampleConstants sampleRuntime sampleTimed) = 0 + (2 * 10 + 10)
  /\ highScore (selectionEffect sampleConstants sampleRuntime sampleTimed) = Some 30.
Proof.
  destruct (success_scores_and_high_score sampleConstants sampleRuntime sampleTimed)
    as [Hscore [Hhigh _]].
  - vm_compute. discriminate.
  - vm_compute. reflexivity.
  - split; [exact Hscore |].
    rewrite Hhigh; [vm_compute; reflexivity |].
    rewrite Hscore. vm_compute. reflexivity.
Defined.

(** From one second left: the countdown ends with no time left, and the
    tick after it adds the row of 6 blocks and sets the time back to 10. *)
Lemma tick_counts_down_then_adds_row_witness :
  exists k,
    (timeLeft (Nat.iter k (tick sampleConstants sampleRuntime) (sampleCountdown 1)) <= 0)%Q
    /\ blocks (Nat.iter k (tick sampleConstants sampleRuntime) (sampleCountdown 1))
       = blocks (sampleCountdown 1)
    /\ length (blocks (Nat.iter (S k) (tick sampleConstants sampleRuntime)
                         (sampleCountdown 1))) = 30%nat
    /\ timeLeft (Nat.iter (S k) (tick sampleConstants sampleRuntime) (sampleCountdown 1))
       = 10 # 1.
Proof.
  destruct (tick_counts_down_then_adds_row sampleConstants sampleRuntime (sampleCountdown 1))
    as [_ [_ [k [t [Hk [Hle [Hrow [_ Hreset]]]]]]]].
  - vm_compute. reflexivity.
  - vm_compute. reflexivity.
  - exists k. rewrite Hk. cbn [timeLeft blocks setTimeLeft].
    split; [exact Hle | split; [reflexivity | split; [| exact Hreset]]].
    rewrite Hrow. vm_compute. reflexivity.
Defined.

(** C4, as the specification words it, fails. With a tenth of a second
    left, the tick is the one at which [timeLeft] drops to 0: it only
    counts down to 0, the grid is the one it found, no row is added and
    the time is not reset. *)
Lemma tick_at_one_tenth_adds_no_row :
  let s := sampleCountdown (1 # 10) in
  let s' := tick sampleConstants sampleRuntime s in
  (status s = playing /\ mode s = time /\ (timeLeft s - (1 # 10) <= 0)%Q)
  /\ (timeLeft s' == 0)%Q
  /\ blocks s' = blocks s
  /\ draws s' = draws s
  /\ blocks s' <> fst (addNewRow sampleConstants sampleRuntime (blocks s) (draws s))
  /\ ~ (timeLeft s' == TIME_LIMIT sampleConstants)%Q
  /\ ~ (status s = playing ->
        mode s = time ->
        (timeLeft s - (1 # 10) <= 0)%Q ->
        blocks s' = fst (addNewRow sampleConstants sampleRuntime (blocks s) (draws s))
        /\ (timeLeft s' == TIME_LIMIT sampleConstants)%Q).
Proof.
  intros s s'.
  assert (Hrow : blocks s'
                 <> fst (addNewRow sampleConstants sampleRuntime (blocks s) (draws s))).
  { intro H. apply (f_equal (@length Block)) in H. vm_compute in H. discriminate. }
  assert (Htime : ~ (timeLeft s' == TIME_LIMIT sampleConstants)%Q).
  { intro H. vm_compute in H. discriminate. }
  repeat split; try (vm_compute; reflexivity); try assumption.
  - vm_compute. discriminate.
  - intro H. destruct H as [H _]; try (vm_compute; reflexivity).
    + vm_compute. discriminate.
    + contradiction.
Qed.

(** ** The scenario of the specification *)

Example scenario_select_five :
  let s := play [Click "b"; SelectionCheck] (scenario classic) in
  score s = 1 * 10 /\ selectedIds s = [] /\ highScore s = Some 10
  /\ length (blocks s) = 8%nat
  /\ map (fun b => (id b, value b, row b)) (firstn 2 (blocks s))
     = [("a", 3, 1); ("c", 2, 1)]%string.
Proof. vm_compute. repeat split. Qed.

Example scenario_select_three_then_two :
  let pending := play [Click "a"; SelectionCheck] (scenario time) in
  let s := play [Click "c"; SelectionCheck] pending in
  selectedIds pending = ["a"%string] /\ score pending = 0
  /\ score s = 2 * 10 + 10 /\ selectedIds s = []
  /\ map (fun b => (id b, value b, row b)) (blocks s) = [("b", 5, 0)]%string.
Proof. vm_compute. repeat split. Qed.

Example scenario_select_three_then_five :
  let flagged := play [Click "a"; SelectionCheck; Click "b"; SelectionCheck] (scenario classic) in
  let s := play [OvershootTimeout] flagged in
  isWrong flagged = true /\ selectedIds flagged = ["a"; "b"]%string
  /\ isWrong s = false /\ selectedIds s = [] /\ score s = 0 /\ blocks s = scenarioBlocks.
Proof. vm_compute. repeat split. Qed.

(** On the scenario, selecting 3 and 2: the sum over the grid is 5. *)
Lemma selectionSum_over_grid_witness :
  currentSum ["a"; "c"]%string scenarioBlocks = 3 + 2.
Proof.
  rewrite (selectionSum_over_grid ["a"; "c"]%string scenarioBlocks).
  - vm_compute. reflexivity.
  - repeat constructor; cbn; intuition discriminate.
  - repeat constructor; cbn; intuition discriminate.
Defined.

(** ** Concrete runs of the further properties *)

Lemma sampleRuntime_unit : unitRandom sampleRuntime.
Proof.
  intro k. cbn [random sampleRuntime].
  pose proof (Nat.mod_upper_bound (37 * k) 101).
  unfold Qle, Qlt. cbn [Qnum Qden]. lia.
Qed.

Lemma sampleClassic_session :
  session sampleConstants sampleRuntime None sampleClassic.
Proof.
  unfold sampleClassic, run. cbn [fold_left].
  repeat apply session_step; try apply session_init; cbn [offered];
    try exact I; apply includes_In; vm_compute; reflexivity.
Qed.

Lemma createBlock_value_in_range_witness :
  1 <= value (fst (createBlock sampleConstants sampleRuntime 0 3 6%nat)) <= 9.
Proof.
  apply (createBlock_value_in_range sampleConstants sampleRuntime 0 3 6%nat).
  - exact sampleRuntime_unit.
  - vm_compute. discriminate.
Defined.

Lemma generateTargetSum_in_range_witness :
  10 <= fst (generateTargetSum sampleConstants sampleRuntime 48%nat) <= 20.
Proof.
  apply (generateTargetSum_in_range sampleConstants sampleRuntime 48%nat).
  - exact sampleRuntime_unit.
  - vm_compute. discriminate.
Defined.

Lemma selection_never_repeats_an_id_witness :
  NoDup (selectedIds sampleClassic).
Proof.
  apply (selection_never_repeats_an_id sampleConstants sampleRuntime
           (initialState sampleConstants None)
           [Start classic; Click "60"; Click "40"]%string).
  cbn. constructor.
Defined.

Lemma handleBlockClick_twice_witness :
  handleBlockClick "a" (handleBlockClick "a" (scenario classic)) = scenario classic.
Proof.
  apply (handleBlockClick_twice "a" (scenario classic)).
  - reflexivity.
  - cbn. intros [].
Defined.

Lemma clicks_and_ticks_need_playing_witness :
  play [Click "a"; Tick; Refill; Click "b"] (resetGame (scenario time))
  = resetGame (scenario time).
Proof.
  apply (clicks_and_ticks_need_playing sampleConstants sampleRuntime).
  - cbn. discriminate.
  - reflexivity.
Defined.

Lemma pause_freezes_the_game_witness :
  play (TogglePause :: [Tick; Tick; Click "a"; Tick] ++ [TogglePause]) (scenario time)
  = scenario time.
Proof.
  apply (pause_freezes_the_game sampleConstants sampleRuntime (scenario time)
           [Tick; Tick; Click "a"; Tick]%string); reflexivity.
Defined.

Lemma success_is_awarded_once_witness :
  score (selectionEffect sampleConstants sampleRuntime
           (selectionEffect sampleConstants sampleRuntime sampleTimed))
  = 0 + pointsOf sampleTimed.
Proof.
  apply (success_is_awarded_once sampleConstants sampleRuntime sampleTimed).
  - vm_compute. discriminate.
  - vm_compute. reflexivity.
Defined.

Lemma overshoot_only_clears_the_selection_witness :
  overshootTimeout
    (selectionEffect sampleConstants sampleRuntime
       (play [Click "a"; Click "b"] (scenario classic)))
  = scenario classic.
Proof.
  rewrite (overshoot_only_clears_the_selection sampleConstants sampleRuntime).
  - reflexivity.
  - vm_compute. discriminate.
  - vm_compute. reflexivity.
Defined.

Lemma grid_stays_well_formed_witness :
  gridWellFormed sampleConstants (blocks sampleClassic).
Proof.
  apply (grid_stays_well_formed sampleConstants sampleRuntime None sampleClassic).
  exact sampleClassic_reachable.
Defined.

Lemma generated_numbers_stay_in_range_witness :
  Forall (fun b => 1 <= value b <= 9) (blocks sampleClassic)
  /\ (targetSum sampleClassic = 0 \/ 10 <= targetSum sampleClassic <= 20).
Proof.
  apply (generated_numbers_stay_in_range sampleConstants sampleRuntime None sampleClassic).
  - exact sampleRuntime_unit.
  - vm_compute. discriminate.
  - vm_compute. discriminate.
  - exact sampleClassic_reachable.
Defined.

Lemma timeLeft_stays_in_bounds_witness :
  (- (1 # 10) < timeLeft sampleTimed)%Q /\ (timeLeft sampleTimed <= 10 # 1)%Q.
Proof.
  apply (timeLeft_stays_in_bounds sampleConstants sampleRuntime None sampleTimed).
  - vm_compute. discriminate.
  - exact sampleTimed_reachable.
Defined.

Lemma score_stays_below_high_score_witness :
  0 <= score sampleTimed <= highScoreValue sampleTimed.
Proof.
  apply (score_stays_below_high_score sampleConstants sampleRuntime None sampleTimed).
  - vm_compute. discriminate.
  - vm_compute. discriminate.
  - exact sampleTimed_reachable.
Defined.

Lemma selection_stays_on_the_grid_witness :
  length (matchingBlocks (selectedIds sampleClassic) (blocks sampleClassic))
  = length (selectedIds sampleClassic).
Proof.
  apply (selection_stays_on_the_grid sampleConstants sampleRuntime None sampleClassic).
  exact sampleClassic_session.
Defined.

Lemma overflow_ends_the_game_witness :
  Forall (fun b => 0 <= row b < 10) (blocks sampleClassic).
Proof.
  apply Forall_forall.
  apply (overflow_ends_the_game sampleConstants sampleRuntime None sampleClassic).
  - vm_compute. discriminate.
  - exact sampleClassic_session.
  - vm_compute. reflexivity.
Defined.

Lemma time_mode_ends_without_success_witness :
  exists n,
    status (Nat.iter n (tick sampleConstants sampleRuntime) (sampleCountdown 1)) = gameover.
Proof.
  apply (time_mode_ends_without_success sampleConstants sampleRuntime (sampleCountdown 1)).
  - vm_compute. lia.
  - vm_compute. reflexivity.
  - vm_compute. reflexivity.
Defined.

Lemma refillEffect_restores_the_grid_witness :
  blocks (refillEffect sampleConstants sampleRuntime (resetGame (scenario time))) = []
  /\ length (blocks (refillEffect sampleConstants sampleRuntime
                       (setBlocks [] (scenario time)))) = 24%nat.
Proof.
  destruct (refillEffect_restores_the_grid sampleConstants sampleRuntime
              (resetGame (scenario time))) as [_ [_ [_ [Hidle _]]]].
  - vm_compute. lia.
  - split; [rewrite Hidle; [reflexivity | cbn; discriminate] |].
    vm_compute. reflexivity.
Defined.

(** With a quarter of a second as the limit, the third tick takes the
    time left below zero, and the fourth adds the row. *)
Example quarter_second_goes_below_zero :
  let K := mkConstants 6 10 4 1 9 10 20 (1 # 4) in
  let s := setTimeLeft (1 # 4) (run K sampleRuntime [Start time] (initialState K None)) in
  (timeLeft (Nat.iter 3 (tick K sampleRuntime) s) == - (1 # 20))%Q
  /\ length (blocks (Nat.iter 3 (tick K sampleRuntime) s)) = 24%nat
  /\ length (blocks (Nat.iter 4 (tick K sampleRuntime) s)) = 30%nat.
Proof. vm_compute. repeat split. Qed.

(** ** The countdown on doubles *)

Module DoubleTimerRuns.
Import PrimFloat DoubleTimer.

(** On the doubles of the code ten decrements from 1.0 leave 1.25 * 2^-53,
    about 1.39e-16, which is above 0: the eleventh tick decrements once
    more and the twelfth finds the time up. From 10.0 the 101st tick still
    decrements and the 102nd finds the time up. *)
Example double_countdown :
  afterTicks 10 1 = Some 0x1.4p-53%float
  /\ (0 <? 0x1.4p-53)%float = true
  /\ (exists t, afterTicks 11 1 = Some t /\ (t <=? 0)%float = true)
  /\ afterTicks 12 1 = None
  /\ (exists t, afterTicks 101 10 = Some t /\ (t <=? 0)%float = true)
  /\ afterTicks 102 10 = None.
Proof.
  repeat split; try (vm_compute; reflexivity);
    eexists; split; vm_compute; reflexivity.
Qed.

End DoubleTimerRuns.
